(** * Vanity-plate monitor: plate registry, key derivation and refresh scheduler

    A shallow embedding of [vanity-monitor/app.js]: the plate-text
    normaliser, the derived key, the persisted store (load, save, upsert,
    delete, migrate, import), the due policy, the check bookkeeping and the
    refresh run, followed by the properties proved about them. *)

From Stdlib Require Import String Ascii DecimalString.
From stdpp Require Import base numbers list sorting.

Local Open Scope Z_scope.

(** ** JavaScript strings

    A JavaScript string is a sequence of UTF-16 code units; [length],
    [slice] and regular expressions without the [u] flag all work on code
    units. *)

Definition char := N.
Definition jsstring := list N.

(** Source literals, written as Rocq strings (ASCII only). *)
Definition lit (s : string) : jsstring :=
  List.map N_of_ascii (list_ascii_of_string s).

(** [a.join(sep)] on an array of strings. *)
Fixpoint join (sep : jsstring) (parts : list jsstring) : jsstring :=
  match parts with
  | [] => []
  | [x] => x
  | x :: rest => x ++ sep ++ join sep rest
  end.

(** ** Property values

    A property of a record read from JSON or built by the page is absent
    (reads as [undefined]), [null], or holds a value. *)
Inductive field (A : Type) : Type :=
| Absent
| Null
| Val (a : A).
Arguments Absent {A}.
Arguments Null {A}.
Arguments Val {A} a.

(** [v || d] where [v] is a string-valued property: the empty string,
    [null] and [undefined] are falsy. *)
Definition str_or (v : field jsstring) (d : jsstring) : jsstring :=
  match v with
  | Val (c :: s) => c :: s
  | _ => d
  end.

(** [v || d] where [v] is an array-valued property: every array is truthy,
    the empty one too. *)
Definition arr_or {A} (v : field (list A)) (d : list A) : list A :=
  match v with
  | Val l => l
  | _ => d
  end.

(** Truthiness of a string-valued property. *)
Definition truthy (v : field jsstring) : bool :=
  match v with
  | Val (_ :: _) => true
  | _ => false
  end.

(** ** Exceptions *)

Record JSError := { name : jsstring; message : jsstring }.

Inductive result (A : Type) : Type :=
| Ok (a : A)
| Throw (e : JSError).
Arguments Ok {A} a.
Arguments Throw {A} e.

(** [new Error(msg)] *)
Definition Error (msg : jsstring) : JSError :=
  {| name := lit "Error"; message := msg |}.

(** [String(e)] for an error object ([Error.prototype.toString]). *)
Definition String_of_error (e : JSError) : jsstring :=
  match name e, message e with
  | [], m => m
  | n, [] => n
  | n, m => n ++ lit ": " ++ m
  end.

(** ** The platform

    Built-ins of the JavaScript engine that the page calls and whose
    tables (Unicode case mapping, collation, local time zone, date
    parsing) are not part of the repository. *)
Class Platform := {
  (** [s.toUpperCase()] *)
  toUpperCase : jsstring -> jsstring;
  (** [a.localeCompare(b, "en", {sensitivity: "base"})]: negative, zero or
      positive *)
  localeCompare : jsstring -> jsstring -> Z;
  (** the time value of [new Date(s)]; [None] stands for [NaN] *)
  Date_parse : jsstring -> option Z;
  (** [getMonth()] and [getFullYear()] of the date with a time value, in
      local time *)
  getMonth : Z -> Z;
  getFullYear : Z -> Z;
  (** [toISOString()] of the date with a time value *)
  toISOString : Z -> jsstring
}.

(** ** Plate text *)

Definition is_upper_or_digit (c : char) : bool :=
  ((65 <=? c) && (c <=? 90) || (48 <=? c) && (c <=? 57))%N.

Definition O_to_zero (c : char) : char :=
  if (c =? 79)%N then 48%N else c.

Section PlateText.
Context `{Platform}.

(** [String(s||"").toUpperCase().replace(/O/g,'0')
      .replace(/[^A-Z0-9]/g,'').slice(0,7)] *)
Definition normalizePlateText (s : field jsstring) : jsstring :=
  take 7
    (List.filter is_upper_or_digit
       (List.map O_to_zero (toUpperCase (str_or s [])))).

(** The message of the error thrown for unusable plate text; the dash is
    U+2013. *)
Definition validation_message : jsstring :=
  lit "plateText must be 1" ++ [8211%N] ++ lit "7 letters/numbers".

Definition validatePlateText (s : jsstring) : result jsstring :=
  match normalizePlateText (Val s) with
  | [] => Throw (Error validation_message)
  | t => Ok t
  end.
End PlateText.

(** ** Plate records *)

(** One entry of a record's [history]: [{status, checkedUtc, note?}]. *)
Record HistEntry := {
  status : jsstring;
  checkedUtc : jsstring;
  note : option jsstring
}.

Record Plate := {
  plateText : field jsstring;
  state : field jsstring;
  selectedVehicleType : field jsstring;
  selectedKindOfPlate : field jsstring;
  selectedPlateProgram : field jsstring;
  selectedPlateProgramID : field jsstring;
  selectedPlateProgramSubCategory : field jsstring;
  lastStatus : field jsstring;
  lastCheckedUtc : field jsstring;
  history : field (list HistEntry)
}.

(** The object with no property at all. *)
Definition empty_object : Plate :=
  {| plateText := Absent; state := Absent; selectedVehicleType := Absent;
     selectedKindOfPlate := Absent; selectedPlateProgram := Absent;
     selectedPlateProgramID := Absent;
     selectedPlateProgramSubCategory := Absent; lastStatus := Absent;
     lastCheckedUtc := Absent; history := Absent |}.

#[global] Instance Plate_inhabited : Inhabited Plate := populate empty_object.

(** One property of [{...old, ...entry}]: a property that [entry] owns,
    [null] included, wins. *)
Definition spread_field {A} (old entry : field A) : field A :=
  match entry with
  | Absent => old
  | _ => entry
  end.

(** [{...old, ...entry}] *)
Definition spread (old entry : Plate) : Plate :=
  {| plateText := spread_field (plateText old) (plateText entry);
     state := spread_field (state old) (state entry);
     selectedVehicleType :=
       spread_field (selectedVehicleType old) (selectedVehicleType entry);
     selectedKindOfPlate :=
       spread_field (selectedKindOfPlate old) (selectedKindOfPlate entry);
     selectedPlateProgram :=
       spread_field (selectedPlateProgram old) (selectedPlateProgram entry);
     selectedPlateProgramID :=
       spread_field (selectedPlateProgramID old) (selectedPlateProgramID entry);
     selectedPlateProgramSubCategory :=
       spread_field (selectedPlateProgramSubCategory old)
                    (selectedPlateProgramSubCategory entry);
     lastStatus := spread_field (lastStatus old) (lastStatus entry);
     lastCheckedUtc := spread_field (lastCheckedUtc old) (lastCheckedUtc entry);
     history := spread_field (history old) (history entry) |}.

(** The separator of the derived key, ["|"]. *)
Definition sep : jsstring := lit "|".

Section Key.
Context `{Platform}.

(** The seven array elements that [mkKey] joins. *)
Definition keyParts (p : Plate) : list jsstring :=
  [ toUpperCase (str_or (plateText p) []);
    str_or (state p) (lit "ID");
    str_or (selectedVehicleType p) (lit "PassengerVehicle");
    str_or (selectedKindOfPlate p) (lit "Personalized");
    str_or (selectedPlateProgram p) (lit "Select");
    str_or (selectedPlateProgramID p) [];
    str_or (selectedPlateProgramSubCategory p) (lit "Select") ].

Definition mkKey (p : Plate) : jsstring := join sep (keyParts p).
End Key.

(** ** Storage

    The text stored under [plates_v1], told apart by what [loadPlates]
    makes of it. [JSON.stringify] of an array of records is the text that
    [JSON.parse] reads back as that array. *)
Inductive payload :=
| Blank                           (* the empty string *)
| Corrupt                         (* text that is not JSON *)
| NotArray                        (* JSON for a value that is not an array *)
| ArrayOf (arr : list Plate).     (* JSON for an array of records *)

(** [localStorage], as far as [STORAGE_KEY] goes: [None] when
    [getItem] returns [null]. *)
Definition Storage := option payload.

(** What [JSON.parse] returns. *)
Inductive parsed :=
| NonArrayValue
| ArrayValue (arr : list Plate).

Definition SyntaxError : JSError :=
  {| name := lit "SyntaxError"; message := lit "Unexpected token" |}.

Definition JSON_parse (raw : payload) : result parsed :=
  match raw with
  | Blank | Corrupt => Throw SyntaxError
  | NotArray => Ok NonArrayValue
  | ArrayOf arr => Ok (ArrayValue arr)
  end.

(** The body of the [try] block of [loadPlates]. *)
Definition loadPlates_try (st : Storage) : result (list Plate) :=
  match st with
  | None | Some Blank => Ok []                       (* if(!raw) return [] *)
  | Some raw =>
      match JSON_parse raw with
      | Throw e => Throw e
      | Ok (ArrayValue arr) => Ok arr                (* Array.isArray(arr) *)
      | Ok NonArrayValue => Ok []
      end
  end.

(** [try{ ... }catch{ return []; }] *)
Definition loadPlates (st : Storage) : list Plate :=
  match loadPlates_try st with
  | Ok arr => arr
  | Throw _ => []
  end.

(** ** Sorting

    [Array.prototype.sort] is stable, and with a comparator that is a total
    preorder its result is the one stable sorted arrangement; insertion
    from the right computes it. *)
Section Sort.
Context {A : Type} (cmp : A -> A -> Z).

Fixpoint sort_insert (x : A) (l : list A) : list A :=
  match l with
  | [] => [x]
  | y :: l' => if cmp x y <=? 0 then x :: y :: l' else y :: sort_insert x l'
  end.

Definition sort (l : list A) : list A := foldr sort_insert [] l.
End Sort.

Section Store.
Context `{Platform}.

(** The comparator of [savePlates]. *)
Definition compare_plates (a b : Plate) : Z :=
  localeCompare (str_or (plateText a) []) (str_or (plateText b) []).

(** [savePlates(arr)]: the array after the in-place sort, and the storage
    after [setItem]. *)
Definition savePlates (arr : list Plate) : list Plate * Storage :=
  let arr' := sort compare_plates arr in
  (arr', Some (ArrayOf arr')).

(** [list.findIndex(p=>mkKey(p)===key)]; [None] stands for [-1]. *)
Definition findIndex (key : jsstring) (l : list Plate) : option nat :=
  fst <$> list_find (fun p => mkKey p = key) l.

(** The list of [upsertPlate] just before [savePlates]. *)
Definition upsert_list (entry : Plate) (l : list Plate) : list Plate :=
  match findIndex (mkKey entry) l with
  | Some i => <[i := spread (l !!! i) entry]> l
  | None => l ++ [entry]
  end.

Definition upsertPlate (entry : Plate) (st : Storage)
  : list Plate * Storage :=
  savePlates (upsert_list entry (loadPlates st)).

(** [deleteByKey(key)], without the re-rendering. *)
Definition deleteByKey (key : jsstring) (st : Storage) : Storage :=
  snd (savePlates (filter (fun p => mkKey p <> key) (loadPlates st))).

(** The facet defaults shared by [migrate] and the import handler. *)
Definition with_defaults (text : field jsstring) (p : Plate) : Plate :=
  {| plateText := text;
     state := Val (str_or (state p) (lit "ID"));
     selectedVehicleType :=
       Val (str_or (selectedVehicleType p) (lit "PassengerVehicle"));
     selectedKindOfPlate :=
       Val (str_or (selectedKindOfPlate p) (lit "Personalized"));
     selectedPlateProgram :=
       Val (str_or (selectedPlateProgram p) (lit "Select"));
     selectedPlateProgramID := Val (str_or (selectedPlateProgramID p) []);
     selectedPlateProgramSubCategory :=
       Val (str_or (selectedPlateProgramSubCategory p) (lit "Select"));
     lastStatus := lastStatus p;
     lastCheckedUtc := lastCheckedUtc p;
     history := history p |}.

(** [n!==p.plateText] *)
Definition text_differs (n : jsstring) (v : field jsstring) : bool :=
  match v with
  | Val s => negb (bool_decide (s = n))
  | _ => true
  end.

(** One turn of the loop of [migrate]: the record afterwards, and whether
    it set [changed]. *)
Definition migrate_record (p : Plate) : Plate * bool :=
  let n := normalizePlateText (plateText p) in
  if text_differs n (plateText p)
  then (with_defaults (Val n) p, true)
  else (with_defaults (plateText p) p, false).

Definition migrate (st : Storage) : Storage :=
  let migrated := migrate_record <$> loadPlates st in
  if existsb snd migrated then snd (savePlates (fst <$> migrated)) else st.

(** The body of [arr.forEach] in the import handler. *)
Definition import_record (p : Plate) : Plate :=
  with_defaults
    (if truthy (plateText p) then Val (normalizePlateText (plateText p))
     else plateText p) p.

(** The import handler on the text of the chosen file: the storage
    afterwards, or the error shown by [alert]. *)
Definition importFile (text : payload) (st : Storage) : result Storage :=
  match JSON_parse text with
  | Throw e => Throw e
  | Ok NonArrayValue => Throw (Error (lit "Invalid JSON"))
  | Ok (ArrayValue arr) => Ok (snd (savePlates (import_record <$> arr)))
  end.
End Store.

(** ** Status helpers *)

Section Status.
Context `{Platform}.

(** [isDue(p)] when [new Date()] has time value [now]. *)
Definition isDue (now : Z) (p : Plate) : bool :=
  match lastCheckedUtc p with
  | Val (c :: s) =>
      match Date_parse (c :: s) with
      | None => true                    (* Number.isNaN(last.getTime()) *)
      | Some last =>
          negb (getMonth last =? getMonth now)
          || negb (getFullYear last =? getFullYear now)
      end
  | _ => true                           (* if(!p.lastCheckedUtc) *)
  end.

(** The entry [e] that [markChecked] pushes; [note] is [None] when the
    call passes no third argument. *)
Definition check_entry (st : jsstring) (nt : option jsstring) (ts : jsstring)
  : HistEntry :=
  {| status := st;
     checkedUtc := ts;
     note := match nt with
             | Some (c :: s) => Some (c :: s)      (* if(note) e.note=note *)
             | _ => None
             end |}.

(** [markChecked(p,status,note)] when [new Date()] has time value [now]:
    the record after the mutation. *)
Definition markChecked (now : Z) (p : Plate) (st : jsstring)
    (nt : option jsstring) : Plate :=
  let ts := toISOString now in
  {| plateText := plateText p;
     state := state p;
     selectedVehicleType := selectedVehicleType p;
     selectedKindOfPlate := selectedKindOfPlate p;
     selectedPlateProgram := selectedPlateProgram p;
     selectedPlateProgramID := selectedPlateProgramID p;
     selectedPlateProgramSubCategory := selectedPlateProgramSubCategory p;
     lastStatus := Val st;
     lastCheckedUtc := Val ts;
     history := Val (arr_or (history p) [] ++ [check_entry st nt ts]) |}.
End Status.

(** ** The remote checks

    The world outside the page, at the [k]-th check of a run: the clock and
    the two proxies, each answering with [Available] as a boolean or with
    the error that [postValidateID] or [postValidateCA] throws. *)
Record IDPayload := {
  payload_plateText : field jsstring;
  payload_selectedVehicleType : jsstring;
  payload_selectedKindOfPlate : jsstring;
  payload_selectedPlateProgram : jsstring;
  payload_selectedPlateProgramID : jsstring;
  payload_selectedPlateProgramSubCategory : jsstring
}.

Record World := {
  (** the time value of [new Date()] when the run selects its targets *)
  start : Z;
  (** the time value of [new Date()] in the [k]-th [markChecked] *)
  clock : nat -> Z;
  postValidateID : nat -> IDPayload -> result bool;
  postValidateCA : nat -> field jsstring -> result bool
}.

Definition basePayloadID (p : Plate) : IDPayload :=
  {| payload_plateText := plateText p;
     payload_selectedVehicleType := lit "PassengerVehicle";
     payload_selectedKindOfPlate := lit "Personalized";
     payload_selectedPlateProgram := lit "Select";
     payload_selectedPlateProgramID := [];
     payload_selectedPlateProgramSubCategory := lit "Select" |}.

(** [a ? "Available" : "Unavailable"] *)
Definition status_of (a : bool) : jsstring :=
  if a then lit "Available" else lit "Unavailable".

Definition checkAvailability (w : World) (k : nat) (p : Plate)
  : result jsstring :=
  if bool_decide (str_or (state p) (lit "ID") = lit "CA") then
    match postValidateCA w k (plateText p) with
    | Ok a => Ok (status_of a)
    | Throw e => Throw e
    end
  else
    match postValidateID w k (basePayloadID p) with
    | Ok a => Ok (status_of a)
    | Throw e => Throw e
    end.

(** [String(e?.message||e)] *)
Definition error_text (e : JSError) : jsstring :=
  match message e with
  | [] => String_of_error e
  | m => m
  end.

Section Check.
Context `{Platform}.

(** The [try]/[catch] around one check, shared by the refresh loop, the
    per-plate refresh button and the add form: the record after
    [markChecked]. *)
Definition check_and_mark (w : World) (k : nat) (p : Plate) : Plate :=
  match checkAvailability w k p with
  | Ok st => markChecked (clock w k) p st None
  | Throw e => markChecked (clock w k) p (lit "Error") (Some (error_text e))
  end.
End Check.

(** ** The refresh run

    [loadPlates] creates one object per record; [all] and [targets] are
    arrays of references to these objects, and with [force] they are one
    and the same array. [markChecked] mutates an object, [savePlates(all)]
    sorts the array [all] in place. The objects live in [heap], at the
    index of their creation. *)
Inductive RunStatus :=
| UpToDate
| Progress (completed total : nat)
| Done.

Inductive Targets :=
| SameArray                       (* force: targets is the array all *)
| FilteredArray (ids : list nat). (* all.filter(isDue): an array of its own *)

Record Run := {
  heap : list Plate;
  all : list nat;
  stored : Storage;
  (** every collection written by [setItem] during the run, in order *)
  writes : list (list Plate);
  (** every text shown by [setRunStatus] during the run, in order *)
  shown : list RunStatus
}.

Section Refresh.
Context `{Platform} (w : World).

Definition targets_array (t : Targets) (r : Run) : list nat :=
  match t with
  | SameArray => all r
  | FilteredArray ids => ids
  end.

Definition setRunStatus (txt : RunStatus) (r : Run) : Run :=
  {| heap := heap r; all := all r; stored := stored r; writes := writes r;
     shown := shown r ++ [txt] |}.

(** The [try]/[catch] of the loop body on the object [id], as the
    [i]-th check of the run. *)
Definition mark_target (i id : nat) (r : Run) : Run :=
  {| heap := <[id := check_and_mark w i (heap r !!! id)]> (heap r);
     all := all r; stored := stored r; writes := writes r;
     shown := shown r |}.

(** [savePlates(all)] *)
Definition save_all (r : Run) : Run :=
  let all' :=
    sort (fun a b => compare_plates (heap r !!! a) (heap r !!! b)) (all r) in
  {| heap := heap r; all := all';
     stored := Some (ArrayOf ((heap r !!!.) <$> all'));
     writes := writes r ++ [(heap r !!!.) <$> all'];
     shown := shown r |}.

(** One turn of the loop, on the object [id] that the iterator yields at
    index [i]. *)
Definition refresh_body (t : Targets) (i id : nat) (r : Run) : Run :=
  let r' := save_all (mark_target i id r) in
  setRunStatus (Progress (S i) (length (targets_array t r'))) r'.

(** [for(const p of targets)]: the array iterator reads [targets[i]] and
    stops when [i] reaches the current length. [None]: out of fuel. *)
Fixpoint refresh_loop (fuel : nat) (t : Targets) (i : nat) (r : Run)
  : option Run :=
  match targets_array t r !! i with
  | None => Some r
  | Some id =>
      match fuel with
      | O => None
      | S fuel' => refresh_loop fuel' t (S i) (refresh_body t i id r)
      end
  end.

(** [refreshDue({force})]; [btn] tells whether the page has the
    [#refresh] button. The loop gets one unit of fuel per target. *)
Definition refreshDue (btn force : bool) (st : Storage) : option Run :=
  let heap0 := loadPlates st in
  let r0 := {| heap := heap0; all := seq 0 (length heap0); stored := st;
               writes := []; shown := [] |} in
  if negb btn then Some r0
  else
    let t := if force then SameArray
             else FilteredArray
                    (filter (fun id => isDue (start w) (heap0 !!! id) = true)
                            (all r0)) in
    let n := length (targets_array t r0) in
    if (n =? 0)%nat then Some (setRunStatus UpToDate r0)
    else
      r ← refresh_loop n t 0 (setRunStatus (Progress 0 n) r0);
      Some (setRunStatus Done r).

(** The click handler of the add form, on the text of [#m_plateText] and
    the value of [#m_state]: the storage afterwards and the message
    shown. *)
Definition submit (text m_state : jsstring) (st : Storage)
  : Storage * jsstring :=
  match validatePlateText text with
  | Throw e => (st, lit "Error: " ++ message e)
  | Ok t =>
      let entry :=
        {| plateText := Val t;
           state := Val (str_or (Val m_state) (lit "ID"));
           selectedVehicleType := Val (lit "PassengerVehicle");
           selectedKindOfPlate := Val (lit "Personalized");
           selectedPlateProgram := Val (lit "Select");
           selectedPlateProgramID := Val [];
           selectedPlateProgramSubCategory := Val (lit "Select");
           lastStatus := Val (lit "Unknown");
           lastCheckedUtc := Null;
           history := Val [] |} in
      (snd (upsertPlate (check_and_mark w 0 entry) st),
       match checkAvailability w 0 entry with
       | Ok _ => lit "Saved."
       | Throw _ => lit "Saved (check failed)."
       end)
  end.

(** The per-plate refresh button, on its [data-key]. *)
Definition refreshOne (key : jsstring) (st : Storage) : Storage :=
  match list_find (fun x => mkKey x = key) (loadPlates st) with
  | None => st
  | Some (_, p) => snd (upsertPlate (check_and_mark w 0 p) st)
  end.
End Refresh.

(** ** The variant of the page without states

    An older copy of the page differs in three places: the key has no
    state, a record is due 24 hours after its last check, and every check
    goes to the Idaho proxy. *)
Module Legacy.
Section Legacy.
Context `{Platform}.

Definition REFRESH_CUTOFF_HOURS : Z := 24.

Definition mkKey (p : Plate) : jsstring :=
  join sep
    [ toUpperCase (str_or (plateText p) []);
      str_or (selectedVehicleType p) (lit "PassengerVehicle");
      str_or (selectedKindOfPlate p) (lit "Personalized");
      str_or (selectedPlateProgram p) (lit "Select");
      str_or (selectedPlateProgramID p) [];
      str_or (selectedPlateProgramSubCategory p) (lit "Select") ].

(** [isDue(p)] when [Date.now()] is [now]. *)
Definition isDue (now : Z) (p : Plate) : bool :=
  match lastCheckedUtc p with
  | Val (c :: s) =>
      match Date_parse (c :: s) with
      | None => true
      | Some t => REFRESH_CUTOFF_HOURS * 3600 * 1000 <=? now - t
      end
  | _ => true
  end.
End Legacy.
End Legacy.

(** ** A reference platform

    ASCII case mapping and collation, UTC as the local time zone, and
    timestamps in the format of [toISOString] only. It runs, so the
    definitions above can be evaluated on concrete records. *)
Module Reference.

Definition upper_char (c : char) : char :=
  if ((97 <=? c) && (c <=? 122))%N then (c - 32)%N else c.

Definition upper (s : jsstring) : jsstring := List.map upper_char s.

Fixpoint lex_compare (a b : list N) : comparison :=
  match a, b with
  | [], [] => Eq
  | [], _ :: _ => Lt
  | _ :: _, [] => Gt
  | x :: a', y :: b' =>
      match (x ?= y)%N with
      | Eq => lex_compare a' b'
      | c => c
      end
  end.

Definition sign (c : comparison) : Z :=
  match c with Lt => -1 | Eq => 0 | Gt => 1 end.

Definition compare_base (a b : jsstring) : Z :=
  sign (lex_compare (upper a) (upper b)).

(** Days since 1970-01-01 of a civil date, and back (proleptic
    Gregorian calendar, months from 1). *)
Definition days_from_civil (y m d : Z) : Z :=
  let y := if m <=? 2 then y - 1 else y in
  let era := y / 400 in
  let yoe := y - era * 400 in
  let doy := (153 * (if 2 <? m then m - 3 else m + 9) + 2) / 5 + d - 1 in
  let doe := yoe * 365 + yoe / 4 - yoe / 100 + doy in
  era * 146097 + doe - 719468.

Definition civil_from_days (z : Z) : Z * Z * Z :=
  let z := z + 719468 in
  let era := z / 146097 in
  let doe := z - era * 146097 in
  let yoe := (doe - doe / 1460 + doe / 36524 - doe / 146096) / 365 in
  let doy := doe - (365 * yoe + yoe / 4 - yoe / 100) in
  let mp := (5 * doy + 2) / 153 in
  let d := doy - (153 * mp + 2) / 5 + 1 in
  let m := if mp <? 10 then mp + 3 else mp - 9 in
  ((if m <=? 2 then yoe + era * 400 + 1 else yoe + era * 400), m, d).

Definition msPerDay : Z := 86400000.

Definition month_of (t : Z) : Z := snd (fst (civil_from_days (t / msPerDay))) - 1.
Definition year_of (t : Z) : Z := fst (fst (civil_from_days (t / msPerDay))).

Definition digit (c : char) : option Z :=
  if ((48 <=? c) && (c <=? 57))%N then Some (Z.of_N c - 48) else None.

Fixpoint number (acc : Z) (ds : list char) : option Z :=
  match ds with
  | [] => Some acc
  | c :: ds' => d ← digit c; number (10 * acc + d) ds'
  end.

(** [YYYY-MM-DDTHH:mm:ss.sssZ] *)
Definition parse_iso (s : jsstring) : option Z :=
  match s with
  | [y1; y2; y3; y4; 45; m1; m2; 45; d1; d2; 84; h1; h2; 58; n1; n2; 58;
     s1; s2; 46; f1; f2; f3; 90]%N =>
      y ← number 0 [y1; y2; y3; y4];
      m ← number 0 [m1; m2];
      d ← number 0 [d1; d2];
      h ← number 0 [h1; h2];
      n ← number 0 [n1; n2];
      sec ← number 0 [s1; s2];
      f ← number 0 [f1; f2; f3];
      if (1 <=? m) && (m <=? 12) && (1 <=? d) && (d <=? 31)
         && (h <? 24) && (n <? 60) && (sec <? 60)
      then Some (days_from_civil y m d * msPerDay
                 + ((h * 60 + n) * 60 + sec) * 1000 + f)
      else None
  | _ => None
  end.

(** The last [width] decimal digits of [n]. *)
Fixpoint digits (width : nat) (n : Z) : jsstring :=
  match width with
  | O => []
  | S width' => digits width' (n / 10) ++ [Z.to_N (48 + n mod 10)]
  end.

Definition iso (t : Z) : jsstring :=
  let '(y, m, d) := civil_from_days (t / msPerDay) in
  let r := t mod msPerDay in
  digits 4 y ++ lit "-" ++ digits 2 m ++ lit "-" ++ digits 2 d ++ lit "T"
  ++ digits 2 (r / 3600000) ++ lit ":" ++ digits 2 (r / 60000 mod 60)
  ++ lit ":" ++ digits 2 (r / 1000 mod 60) ++ lit "."
  ++ digits 3 (r mod 1000) ++ lit "Z".

#[export] Instance platform : Platform := {
  toUpperCase := upper;
  localeCompare := compare_base;
  Date_parse := parse_iso;
  getMonth := month_of;
  getFullYear := year_of;
  toISOString := iso
}.

(** A record as the add form builds it, never checked. *)
Definition plate (text st : string) : Plate :=
  {| plateText := Val (lit text);
     state := Val (lit st);
     selectedVehicleType := Val (lit "PassengerVehicle");
     selectedKindOfPlate := Val (lit "Personalized");
     selectedPlateProgram := Val (lit "Select");
     selectedPlateProgramID := Val [];
     selectedPlateProgramSubCategory := Val (lit "Select");
     lastStatus := Val (lit "Unknown");
     lastCheckedUtc := Null;
     history := Val [] |}.

(** A world whose proxies answer from a table of outcomes, one per
    check, and whose clock advances one second per check from
    2024-02-01T00:00:00.000Z. *)
Definition scripted (outcomes : list (result bool)) : World :=
  {| start := 1706745600000;
     clock := fun k => 1706745600000 + 1000 * Z.of_nat k;
     postValidateID := fun k _ => default (Ok false) (outcomes !! k);
     postValidateCA := fun k _ => default (Ok false) (outcomes !! k) |}.
End Reference.

(** ** Vocabulary of the statements *)

(** What the page needs of [toUpperCase]: a string of ASCII capitals and
    digits is its own upper case. *)
Definition upper_fixes_plain `{Platform} : Prop :=
  forall t : jsstring,
    Forall (fun c => is_upper_or_digit c = true) t -> toUpperCase t = t.

(** The wording of the validation message in the specification. *)
Definition specified_validation_message : jsstring :=
  lit "plate text must be 1" ++ [8211%N] ++ lit "7 letters/numbers".

(** The seven properties that make a record's identity are the same in
    [p] and [q]. *)
Definition same_identity (p q : Plate) : Prop :=
  plateText q = plateText p
  /\ state q = state p
  /\ selectedVehicleType q = selectedVehicleType p
  /\ selectedKindOfPlate q = selectedKindOfPlate p
  /\ selectedPlateProgram q = selectedPlateProgram p
  /\ selectedPlateProgramID q = selectedPlateProgramID p
  /\ selectedPlateProgramSubCategory q = selectedPlateProgramSubCategory p.

(** [p] after assignments to [lastStatus], [lastCheckedUtc] and [history]
    only. *)
Definition assign_check_fields (ls lc : field jsstring)
    (h : field (list HistEntry)) (p : Plate) : Plate :=
  {| plateText := plateText p;
     state := state p;
     selectedVehicleType := selectedVehicleType p;
     selectedKindOfPlate := selectedKindOfPlate p;
     selectedPlateProgram := selectedPlateProgram p;
     selectedPlateProgramID := selectedPlateProgramID p;
     selectedPlateProgramSubCategory := selectedPlateProgramSubCategory p;
     lastStatus := ls;
     lastCheckedUtc := lc;
     history := h |}.

(** The month after the month [(y, m)], a year and a month counted from 0
    as [getMonth] counts. *)
Definition month_after (ym : Z * Z) : Z * Z :=
  if snd ym =? 11 then (fst ym + 1, 0) else (fst ym, snd ym + 1).

(** [a] may stand before [b] in an array sorted with the comparator
    [cmp]. *)
Definition before {A} (cmp : A -> A -> Z) (a b : A) : Prop := cmp a b <= 0.

(** What the page needs of [localeCompare]: of two strings, one comes
    first (the comparison is total), and coming first is transitive. *)
Definition compare_total `{Platform} : Prop :=
  forall a b : jsstring, 0 < localeCompare a b -> localeCompare b a <= 0.

Definition compare_transitive `{Platform} : Prop :=
  forall a b c : jsstring,
    localeCompare a b <= 0 -> localeCompare b c <= 0 ->
    localeCompare a c <= 0.

(** [p] may stand before [q] in a collection sorted by plate text. *)
Definition plates_le `{Platform} (p q : Plate) : Prop :=
  compare_plates p q <= 0.

(** The collection is non-decreasing by plate text. *)
Definition sorted_by_text `{Platform} (l : list Plate) : Prop :=
  Sorted plates_le l.

(** The storage as the page leaves it: nothing is stored before the
    first write, and what is stored is written by [savePlates], the one
    place of the page that sets the item. *)
Definition written `{Platform} (st : Storage) : Prop :=
  st = None \/ exists arr, st = snd (savePlates arr).

(** What every state of a refresh run satisfies, given the storage [st0]
    it started from. *)
Definition run_sorted `{Platform} (st0 : Storage) (r : Run) : Prop :=
  Forall sorted_by_text (writes r)
  /\ (stored r = st0 \/ sorted_by_text (loadPlates (stored r))).

(** The code unit of the separator. *)
Definition bar : char := 124%N.

(** How many separators a string holds. *)
Fixpoint bars (s : jsstring) : nat :=
  match s with
  | [] => 0
  | c :: s' => (if (c =? bar)%N then 1 else 0) + bars s'
  end.

(** No two records of the collection have the same key. *)
Definition unique_keys `{Platform} (l : list Plate) : Prop :=
  NoDup (mkKey <$> l).

(** The entry owns all seven identity properties, as every entry of the
    add form does. *)
Definition owns_identity (e : Plate) : Prop :=
  plateText e <> Absent
  /\ state e <> Absent
  /\ selectedVehicleType e <> Absent
  /\ selectedKindOfPlate e <> Absent
  /\ selectedPlateProgram e <> Absent
  /\ selectedPlateProgramID e <> Absent
  /\ selectedPlateProgramSubCategory e <> Absent.

(** None of the seven parts of the entry's key holds the separator. *)
Definition separator_free `{Platform} (e : Plate) : Prop :=
  Forall (fun s => bars s = 0%nat) (keyParts e).

(** A sequence of [upsertPlate] calls. *)
Definition upsert_all `{Platform} (entries : list Plate) (st : Storage)
  : Storage :=
  foldl (fun st e => snd (upsertPlate e st)) st entries.

(** The collection [l] once the checks of its first [k] records are
    booked, the [i]-th record by the [i]-th check of the run. *)
Definition checked_upto `{Platform} (w : World) (k : nat) (l : list Plate)
  : list Plate :=
  imap (fun i p => if (i <? k)%nat then check_and_mark w i p else p) l.

(** ** Concrete stores and worlds, on the reference platform *)
Module Scenario.
Import Reference.

(** Three records in sorted order, and a world where the second of three
    checks fails with HTTP 500. *)
Definition three_plates : Storage :=
  Some (ArrayOf [plate "ABC" "ID"; plate "DEF" "CA"; plate "XYZ" "ID"]).

Definition one_failure : World :=
  scripted [Ok true; Throw (Error (lit "HTTP 500")); Ok false].

(** A stored collection that is not in sorted order, and a world where
    every check answers that the plate is available. *)
Definition unsorted : Storage :=
  Some (ArrayOf [plate "B" "ID"; plate "A" "ID"]).

Definition always_available : World := scripted [Ok true; Ok true].

(** A world whose first check throws an error with an empty message. *)
Definition silent_failure : World := scripted [Throw (Error [])].

(** A record last checked at the time [ts]. *)
Definition checked_at (text ts : string) : Plate :=
  assign_check_fields
    (Val (lit "Available")) (Val (lit ts))
    (Val [{| status := lit "Available"; checkedUtc := lit ts;
             note := None |}])
    (plate text "ID").

(** 2024-02-01T12:00:00.000Z *)
Definition february_1_noon : Z := 1706788800000.

(** Records with plate text [A] that differ in state and vehicle type
    only. *)
Definition typed (st vt : field jsstring) : Plate :=
  {| plateText := Val (lit "A");
     state := st;
     selectedVehicleType := vt;
     selectedKindOfPlate := Val (lit "Personalized");
     selectedPlateProgram := Val (lit "Select");
     selectedPlateProgramID := Val [];
     selectedPlateProgramSubCategory := Val (lit "Select");
     lastStatus := Val (lit "Unknown");
     lastCheckedUtc := Null;
     history := Val [] |}.

(** Two stored records with different keys, and an entry without a
    [state] property whose key is the key of the first. *)
Definition colliding : Storage :=
  Some (ArrayOf [typed (Val (lit "ID|X")) (Val (lit "Y"));
                 typed (Val (lit "ID|X")) (Val (lit "X|Y"))]).

Definition stateless_entry : Plate := typed Absent (Val (lit "X|Y")).

Definition abc : Storage :=
  Some (ArrayOf [plate "A" "ID"; plate "B" "ID"; plate "C" "ID"]).

(** A record that has its plate text and nothing else. *)
Definition bare (text : string) : Plate :=
  {| plateText := Val (lit text); state := Absent;
     selectedVehicleType := Absent; selectedKindOfPlate := Absent;
     selectedPlateProgram := Absent; selectedPlateProgramID := Absent;
     selectedPlateProgramSubCategory := Absent; lastStatus := Absent;
     lastCheckedUtc := Absent; history := Absent |}.
End Scenario.

(** ** Rendering helpers *)

(** [String(n)] for an integer [n] (below 10^21 in size, where JavaScript
    still writes all digits). *)
Definition decimal (n : Z) : jsstring :=
  lit (NilZero.string_of_int (Z.to_int n)).

(** The dash shown for a record that was never checked, U+2014. *)
Definition em_dash : jsstring := [8212%N].

Section Render.
Context `{Platform}.

(** [relTime(iso)] when [new Date()] has time value [now]. Time values
    are integers, so [Math.floor] of their quotients is the quotient
    rounded down, and a comparison with [NaN] is false. *)
Definition relTime (now : Z) (iso : field jsstring) : jsstring :=
  match iso with
  | Val (c :: iso') =>
      match Date_parse (c :: iso') with
      | None => lit "NaN" ++ lit "d ago"
      | Some then_ =>
          let s := (now - then_) / 1000 in
          if s <? 5 then lit "Just now"
          else
            let m := s / 60 in
            let h := m / 60 in
            let d := h / 24 in
            if s <? 60 then decimal s ++ lit "s ago"
            else if m <? 60 then decimal m ++ lit "m ago"
            else if h <? 24 then decimal h ++ lit "h ago"
            else decimal d ++ lit "d ago"
      end
  | _ => em_dash                                   (* if(!iso) *)
  end.

(** [x?.lastCheckedUtc ? Date.parse(x.lastCheckedUtc) : 0] in the reducer
    of [render]; [None] stands for [NaN]. *)
Definition check_time (x : option Plate) : option Z :=
  match x with
  | Some p =>
      match lastCheckedUtc p with
      | Val (c :: s) => Date_parse (c :: s)
      | _ => Some 0
      end
  | None => Some 0
  end.

(** [tb>ta] *)
Definition later (tb ta : option Z) : bool :=
  match tb, ta with
  | Some b, Some a => a <? b
  | _, _ => false
  end.

(** The reducer of [render]: [(a,b)=>{ ...; return tb>ta?b:a; }]. *)
Definition newer (a : option Plate) (b : Plate) : option Plate :=
  if later (check_time (Some b)) (check_time a) then Some b else a.

(** [rows.reduce(..., null)] in [render]: the record shown as the latest
    check. *)
Definition latest (rows : list Plate) : option Plate :=
  foldl newer None rows.

(** The text of [#updated] when [new Date()] has time value [now]. *)
Definition updated_text (now : Z) (rows : list Plate) : jsstring :=
  match latest rows with
  | Some p =>
      if truthy (lastCheckedUtc p)
      then lit "latest: " ++ relTime now (lastCheckedUtc p)
      else lit "no checks yet"
  | None => lit "no checks yet"
  end.
End Render.

(** ** Export

    The text that the export button puts into the downloaded file:
    [localStorage.getItem(STORAGE_KEY)||"[]"]. *)
Definition exportBlob (st : Storage) : payload :=
  match st with
  | None | Some Blank => ArrayOf []
  | Some raw => raw
  end.

(** ** The proxies

    What [fetch] resolves with, as far as the page reads it: [res.ok],
    [res.status], and the body, told apart by what [JSON.parse] makes of
    it. Of decoded data the page reads [data.error], here [Some] of its
    string form when it is truthy, and the truthiness of
    [data.Available]. *)
Inductive body :=
| NotJSON (text : jsstring)
| JSONNull
| JSONData (error : option jsstring) (Available : bool).

Record Response := {
  ok : bool;
  http_status : Z;
  response_body : body
}.

(** The error of reading a property of [null]; its wording is the
    engine's. *)
Definition TypeError_null (property : string) : JSError :=
  {| name := lit "TypeError";
     message := lit "Cannot read properties of null (reading '"
                ++ lit property ++ lit "')" |}.

(** The part that [postValidateID] and [postValidateCA] share, after
    [fetch]; they differ in the wording of two messages. *)
Definition decode_response (non_json http : jsstring) (res : Response)
  : result bool :=
  match response_body res with
  | NotJSON text =>
      Throw (Error (non_json ++ decimal (http_status res) ++ lit "): "
                    ++ take 200 text))
  | JSONNull =>
      if negb (ok res) then Throw (TypeError_null "error")
      else Throw (TypeError_null "Available")
  | JSONData error available =>
      if negb (ok res)
      then Throw (Error (match error with
                         | Some m => m
                         | None => http ++ decimal (http_status res)
                         end))
      else Ok available                               (* !!data.Available *)
  end.

Definition CA_PROXY : jsstring :=
  lit "https://vanity-plate-ca.profit-alerts.workers.dev/api/validate-ca".

(** The network: what [fetch] does with the [k]-th request of a run to
    either proxy; [Throw] is a rejected promise. *)
Record Network := {
  fetchID : nat -> IDPayload -> result Response;
  fetchCA : nat -> field jsstring -> result Response
}.

Definition postValidateID_on (net : Network) (k : nat) (payload : IDPayload)
  : result bool :=
  match fetchID net k payload with
  | Throw e => Throw e
  | Ok res => decode_response (lit "Non-JSON response (") (lit "HTTP ") res
  end.

Definition postValidateCA_on (net : Network) (k : nat)
    (plateText : field jsstring) : result bool :=
  match CA_PROXY with
  | [] => Throw (Error (lit "California requires a simple proxy. "
                        ++ lit "Set CA_PROXY in app.js."))
  | _ =>
      match fetchCA net k plateText with
      | Throw e => Throw e
      | Ok res =>
          decode_response (lit "CA proxy non-JSON (") (lit "CA proxy HTTP ")
                          res
      end
  end.

(** The world of a page that talks to [net]. *)
Definition world_on (net : Network) (start_time : Z) (time : nat -> Z)
  : World :=
  {| start := start_time;
     clock := time;
     postValidateID := postValidateID_on net;
     postValidateCA := postValidateCA_on net |}.

(** ** The add form's entry *)

(** The object that the click handler of the add form builds from
    validated text [t] and the value of [#m_state]. *)
Definition new_entry (t m_state : jsstring) : Plate :=
  {| plateText := Val t;
     state := Val (str_or (Val m_state) (lit "ID"));
     selectedVehicleType := Val (lit "PassengerVehicle");
     selectedKindOfPlate := Val (lit "Personalized");
     selectedPlateProgram := Val (lit "Select");
     selectedPlateProgramID := Val [];
     selectedPlateProgramSubCategory := Val (lit "Select");
     lastStatus := Val (lit "Unknown");
     lastCheckedUtc := Null;
     history := Val [] |}.

(** ** The older copy of the page, continued *)
Module LegacyPage.
Section LegacyPage.
Context `{Platform}.

(** [relTime(iso)] of the older copy: no "Just now". *)
Definition relTime (now : Z) (iso : field jsstring) : jsstring :=
  match iso with
  | Val (c :: iso') =>
      match Date_parse (c :: iso') with
      | None => lit "NaN" ++ lit "d ago"
      | Some then_ =>
          let s := (now - then_) / 1000 in
          let m := s / 60 in
          let h := m / 60 in
          let d := h / 24 in
          if s <? 60 then decimal s ++ lit "s ago"
          else if m <? 60 then decimal m ++ lit "m ago"
          else if h <? 24 then decimal h ++ lit "h ago"
          else decimal d ++ lit "d ago"
      end
  | _ => em_dash
  end.
End LegacyPage.
End LegacyPage.

(** What the page needs of [localeCompare] for equal strings. *)
Definition compare_reflexive `{Platform} : Prop :=
  forall a : jsstring, localeCompare a a <= 0.

(** A string as the normaliser returns it: at most seven code units, each
    a capital letter other than O or a digit. *)
Definition normal_text (t : jsstring) : Prop :=
  (length t <= 7)%nat
  /\ Forall (fun c => is_upper_or_digit c = true /\ c <> 79%N) t.

(** The entry owns all ten properties of a record, as the entry of the add
    form does. *)
Definition owns_all (e : Plate) : Prop :=
  owns_identity e
  /\ lastStatus e <> Absent
  /\ lastCheckedUtc e <> Absent
  /\ history e <> Absent.

(** The plate text by which [savePlates] compares. *)
Definition sort_text (p : Plate) : jsstring := str_or (plateText p) [].

(** A record as the import handler and the migration leave it: state and
    facets are set, to their defaults if they were missing, and plate text
    that is a string has the shape of normal text. *)
Definition defaulted (q : Plate) : Prop :=
  truthy (state q) = true
  /\ truthy (selectedVehicleType q) = true
  /\ truthy (selectedKindOfPlate q) = true
  /\ truthy (selectedPlateProgram q) = true
  /\ (exists s, selectedPlateProgramID q = Val s)
  /\ truthy (selectedPlateProgramSubCategory q) = true
  /\ (forall t, plateText q = Val t -> normal_text t).

(** The record that [migrate] makes of [p]. *)
Definition migrated `{Platform} (p : Plate) : Plate :=
  with_defaults (Val (normalizePlateText (plateText p))) p.

(** The history of a record, empty when the property is missing. *)
Definition history_of (p : Plate) : list HistEntry := arr_or (history p) [].

(** [q] is [p] after some checks: the seven identity properties are
    those of [p], and the history is that of [p] with entries added at the
    end. *)
Definition grown (p q : Plate) : Prop :=
  same_identity p q /\ history_of p `prefix_of` history_of q.

(** The indices of the stored records that are due when a run starts, in
    stored order: the targets of a run without [force]. *)
Definition due_ids `{Platform} (w : World) (l : list Plate) : list nat :=
  filter (fun id => isDue (start w) (l !!! id) = true) (seq 0 (length l)).

(** What holds of the state of a run over the collection [l], loaded from
    the storage [st0], after any number of turns of the loop. *)
Definition run_inv `{Platform} (st0 : Storage) (l : list Plate) (r : Run)
  : Prop :=
  Forall2 grown l (heap r)
  /\ all r ≡ₚ seq 0 (length l)
  /\ (sorted_by_text l -> all r = seq 0 (length l))
  /\ Forall (fun W => exists h, Forall2 grown l h /\ W ≡ₚ h
                                /\ (sorted_by_text l -> W = h))
            (writes r)
  /\ ((writes r = [] /\ stored r = st0)
      \/ (stored r = Some (ArrayOf ((heap r !!!.) <$> all r))
          /\ last (writes r) = Some ((heap r !!!.) <$> all r))).

(** The request that a check of [p] sends, and what [fetch] does with
    it. *)
Definition fetch_for (net : Network) (k : nat) (p : Plate)
  : result Response :=
  if bool_decide (str_or (state p) (lit "ID") = lit "CA")
  then fetchCA net k (plateText p)
  else fetchID net k (basePayloadID p).

(** The state in which [refreshDue] enters its loop, before any status is
    shown: the objects that [loadPlates] created and the array [all]. *)
Definition run_start (st : Storage) : Run :=
  {| heap := loadPlates st; all := seq 0 (length (loadPlates st));
     stored := st; writes := []; shown := [] |}.

(** The targets of a run over the stored collection [l]. *)
Definition targets_of `{Platform} (w : World) (force : bool)
    (l : list Plate) : Targets :=
  if force then SameArray else FilteredArray (due_ids w l).

(** What a run shows for [n] targets. *)
Definition progress_of (n : nat) : list RunStatus :=
  match n with
  | O => [UpToDate]
  | S _ => Progress 0 n :: ((fun k => Progress (S k) n) <$> seq 0 n) ++ [Done]
  end.

(** The objects of a run over [l] after the first [k] of the targets
    [ids] have been checked: target number [j] holds the record stored
    under that index after the [j]-th check, every other object is as
    stored. *)
Definition booked `{Platform} (w : World) (l : list Plate)
    (ids : list nat) (k : nat) (h : list Plate) : Prop :=
  length h = length l
  /\ (forall j id, (j < k)%nat -> ids !! j = Some id ->
                   h !! id = Some (check_and_mark w j (l !!! id)))
  /\ (forall i, (forall j, (j < k)%nat -> ids !! j <> Some i) ->
                h !! i = l !! i).

(** The first [n] checks of the world [w] happen in the calendar month of
    the time [now], and their times, written by [toISOString], are read
    back by the date parser. *)
Definition checks_in_month_of `{Platform} (w : World) (n : nat) (now : Z)
  : Prop :=
  forall k, (k < n)%nat ->
    toISOString (clock w k) <> []
    /\ Date_parse (toISOString (clock w k)) = Some (clock w k)
    /\ getMonth (clock w k) = getMonth now
    /\ getFullYear (clock w k) = getFullYear now.

(** [statusClass(s)] on a string. *)
Definition statusClass (s : jsstring) : jsstring :=
  if bool_decide (s = lit "Available") then lit "available"
  else if bool_decide (s = lit "Unavailable") then lit "unavailable"
  else if bool_decide (s = lit "Error") then lit "error"
  else lit "unknown".

(** The class with which [render] shows a record:
    [statusClass(r.lastStatus||"Unknown")]. *)
Definition rendered_class (r : Plate) : jsstring :=
  statusClass (str_or (lastStatus r) (lit "Unknown")).

(** ** More concrete stores and networks *)
Module Cases.
Import Reference Scenario.

(** One plate watched in two states, between them another plate. *)
Definition two_states : list Plate :=
  [plate "B" "ID"; plate "A" "ID"; plate "A" "CA"].

(** A store that is not sorted, with a record checked on 2024-02-01 and a
    record that was never checked. *)
Definition half_checked : Storage :=
  Some (ArrayOf [checked_at "B" "2024-02-01T00:00:00.000Z"; plate "A" "ID"]).

(** A world in which no check is ever answered, and which starts on
    2024-02-01. *)
Definition later_that_month : World := scripted [].

(** A network whose Idaho proxy answers every request with status 500
    and a JSON body without [error]. *)
Definition failing_network : Network :=
  {| fetchID := fun _ _ =>
       Ok {| ok := false; http_status := 500;
             response_body := JSONData None false |};
     fetchCA := fun _ _ =>
       Ok {| ok := true; http_status := 200;
             response_body := JSONData None true |} |}.

(** Three records, the second checked last. *)
Definition checked_rows : list Plate :=
  [checked_at "A" "2024-01-31T23:59:59.999Z";
   checked_at "B" "2024-02-01T00:00:00.000Z";
   plate "C" "ID"].
End Cases.

(** * Properties *)

(** ** The normaliser *)

Section NormalizerFacts.
Context `{Platform}.

Lemma O_to_zero_idem c : O_to_zero (O_to_zero c) = O_to_zero c.
Proof.
  unfold O_to_zero. destruct (c =? 79)%N eqn:E; [reflexivity|].
  now rewrite E.
Qed.

Lemma normalize_chars (s : field jsstring) :
  Forall (fun c => is_upper_or_digit c = true /\ O_to_zero c = c)
         (normalizePlateText s).
Proof.
  unfold normalizePlateText. apply Forall_take, List.Forall_forall.
  intros c Hc. apply List.filter_In in Hc as [Hin Hok]. split; [exact Hok|].
  apply List.in_map_iff in Hin as (c0 & <- & _). apply O_to_zero_idem.
Qed.

Lemma normalize_length (s : field jsstring) :
  (length (normalizePlateText s) <= 7)%nat.
Proof. unfold normalizePlateText. rewrite length_take. lia. Qed.

Lemma map_fixed {A} (f : A -> A) (l : list A) :
  Forall (fun x => f x = x) l -> List.map f l = l.
Proof. induction 1 as [|x l Hx _ IH]; simpl; congruence. Qed.

Lemma filter_all {A} (f : A -> bool) (l : list A) :
  Forall (fun x => f x = true) l -> List.filter f l = l.
Proof.
  induction 1 as [|x l Hx _ IH]; simpl; [reflexivity|].
  now rewrite Hx, IH.
Qed.

Lemma str_or_empty (t : jsstring) : str_or (Val t) [] = t.
Proof. now destruct t. Qed.

(** C4. Every result of the normaliser has at most seven code units,
    all of them in [A-Z0-9]; and, on a platform where upper-casing leaves
    such strings alone, normalising a normalised string changes nothing.
    The normaliser is a total function: it returns a string for every
    string. *)
Theorem normalize_idempotent_bounded (s : jsstring) :
  (length (normalizePlateText (Val s)) <= 7)%nat
  /\ Forall (fun c => is_upper_or_digit c = true)
            (normalizePlateText (Val s))
  /\ (upper_fixes_plain ->
      normalizePlateText (Val (normalizePlateText (Val s)))
      = normalizePlateText (Val s)).
Proof.
  pose proof (normalize_chars (Val s)) as Hc.
  pose proof (normalize_length (Val s)) as Hl.
  split; [exact Hl|]. split.
  - eapply Forall_impl; [exact Hc|]. now intros c [? _].
  - intros Hup. set (t := normalizePlateText (Val s)) in *.
    unfold normalizePlateText at 1. rewrite str_or_empty, Hup.
    + rewrite map_fixed, filter_all, take_ge; [reflexivity|exact Hl| |].
      * eapply Forall_impl; [exact Hc|]. now intros c [? _].
      * eapply Forall_impl; [exact Hc|]. now intros c [_ ?].
    + eapply Forall_impl; [exact Hc|]. now intros c [? _].
Qed.

(** C9 (amended). Plate text whose normal form is empty is rejected
    with the error message of the source, and the add form then leaves
    the storage as it was; any other plate text is accepted and
    validation returns its normal form. *)
Theorem validatePlateText_rejects_empty (s : jsstring) :
  (normalizePlateText (Val s) = [] ->
     validatePlateText s = Throw (Error validation_message)
     /\ forall (w : World) (m_state : jsstring) (st : Storage),
          fst (submit w s m_state st) = st)
  /\ (normalizePlateText (Val s) <> [] ->
        validatePlateText s = Ok (normalizePlateText (Val s))).
Proof.
  unfold submit, validatePlateText. split; intros Hn.
  - rewrite Hn. split; [reflexivity|]. intros; reflexivity.
  - destruct (normalizePlateText (Val s)); [contradiction|reflexivity].
Qed.
End NormalizerFacts.

(** ** Loading *)

(** C7. Whatever is stored, [loadPlates] returns a list: the empty one
    when nothing is stored, when the text is empty, when it is not JSON and
    when it is JSON for something other than an array, and the stored array
    otherwise. An exception of the decoder never leaves [loadPlates]. *)
Theorem loadPlates_defensive :
  loadPlates None = []
  /\ loadPlates (Some Blank) = []
  /\ loadPlates (Some Corrupt) = []
  /\ loadPlates (Some NotArray) = []
  /\ (forall arr, loadPlates (Some (ArrayOf arr)) = arr)
  /\ (forall st e, loadPlates_try st = Throw e -> loadPlates st = []).
Proof.
  repeat split; try reflexivity.
  intros st e He. unfold loadPlates. now rewrite He.
Qed.

(** ** The derived key and the check bookkeeping *)

Section KeyFacts.
Context `{Platform}.

Lemma mkKey_same_identity (p q : Plate) :
  same_identity p q -> mkKey q = mkKey p.
Proof.
  intros (Ht & Hs & Hv & Hk & Hp & Hi & Hc).
  unfold mkKey, keyParts. now rewrite Ht, Hs, Hv, Hk, Hp, Hi, Hc.
Qed.

Lemma markChecked_same_identity now p st nt :
  same_identity p (markChecked now p st nt).
Proof. repeat split. Qed.

(** C6. The key of a record is a function of its plate text, its
    state and its five facets: records that agree on these seven have the
    same key, so assigning [lastStatus], [lastCheckedUtc] or [history],
    as [markChecked] does, leaves the key as it was. *)
Theorem mkKey_stable :
  (forall p q, same_identity p q -> mkKey q = mkKey p)
  /\ (forall ls lc h p, mkKey (assign_check_fields ls lc h p) = mkKey p)
  /\ (forall now p st nt, mkKey (markChecked now p st nt) = mkKey p).
Proof.
  split; [exact mkKey_same_identity|]. split.
  - intros. apply mkKey_same_identity. repeat split.
  - intros. apply mkKey_same_identity, markChecked_same_identity.
Qed.

(** C10. After [markChecked] the history is the former one (or the
    empty one, when the property was missing) with one more entry at the
    end; [lastStatus] and [lastCheckedUtc] are the status and the time of
    that last entry. *)
Theorem markChecked_summary_in_sync now p st nt :
  exists e,
    history (markChecked now p st nt) = Val (arr_or (history p) [] ++ [e])
    /\ last (arr_or (history (markChecked now p st nt)) []) = Some e
    /\ lastStatus (markChecked now p st nt) = Val (status e)
    /\ lastCheckedUtc (markChecked now p st nt) = Val (checkedUtc e)
    /\ status e = st
    /\ (history p = Absent \/ history p = Null ->
        history (markChecked now p st nt) = Val [e]).
Proof.
  exists (check_entry st nt (toISOString now)). simpl.
  repeat split; try reflexivity.
  - apply last_snoc.
  - intros [-> | ->]; reflexivity.
Qed.

(** C2 (amended). For the [isDue] of vanity-monitor/app.js: a record
    is due exactly when it has no time of last check, when that time does
    not parse, or when the month or the year of the last check is not the
    current one. So a record last checked in month [M] is due in the month
    after [M], from its first day on, and a record last checked in the
    current month of the current year, today included, is not due. (The
    [isDue] of the older copy, [Legacy.isDue], has a rolling cutoff of 24
    hours instead.) *)
Theorem isDue_calendar_month now p :
  (isDue now p = true <->
     truthy (lastCheckedUtc p) = false
     \/ (exists s, lastCheckedUtc p = Val s /\ Date_parse s = None)
     \/ (exists s last,
           lastCheckedUtc p = Val s /\ Date_parse s = Some last
           /\ (getMonth last <> getMonth now
               \/ getFullYear last <> getFullYear now)))
  /\ (forall s last,
        lastCheckedUtc p = Val s -> Date_parse s = Some last ->
        (getFullYear now, getMonth now)
        = month_after (getFullYear last, getMonth last) ->
        isDue now p = true)
  /\ (forall s last,
        lastCheckedUtc p = Val s -> s <> [] -> Date_parse s = Some last ->
        getFullYear now = getFullYear last ->
        getMonth now = getMonth last ->
        isDue now p = false).
Proof.
  unfold isDue. split; [|split].
  - destruct (lastCheckedUtc p) as [| |[|c s]] eqn:E; simpl;
      try (split; [intros _; left; reflexivity | reflexivity]).
    destruct (Date_parse (c :: s)) as [last|] eqn:D.
    + rewrite orb_true_iff, !negb_true_iff, !Z.eqb_neq. split.
      * intros Hd. right; right. exists (c :: s), last. auto.
      * intros [Hf | [(s' & Hs & Hn) | (s' & last' & Hs & Hp & Hd)]].
        -- discriminate.
        -- injection Hs as <-. congruence.
        -- injection Hs as <-. rewrite D in Hp. injection Hp as <-.
           exact Hd.
    + split; [|reflexivity]. intros _. right; left. eauto.
  - intros s last -> Hp Hnext. destruct s as [|c s]; [reflexivity|].
    rewrite Hp. unfold month_after in Hnext. simpl in Hnext.
    rewrite orb_true_iff, !negb_true_iff, !Z.eqb_neq.
    destruct (getMonth last =? 11) eqn:E; injection Hnext as Hy Hm.
    + right. lia.
    + left. lia.
  - intros s last -> Hne Hp Hy Hm. destruct s as [|c s]; [contradiction|].
    rewrite Hp, Hy, Hm, !Z.eqb_refl. reflexivity.
Qed.
End KeyFacts.

(** The older copy of the page has a rolling policy instead: a record
    with a time of last check that parses is due exactly when 24 hours
    have passed since. *)
Lemma legacy_isDue_rolling `{Platform} now p s t :
  lastCheckedUtc p = Val s -> s <> [] -> Date_parse s = Some t ->
  Legacy.isDue now p = true <-> 86400000 <= now - t.
Proof.
  intros Hs Hne Hp. unfold Legacy.isDue. rewrite Hs.
  destruct s as [|c s]; [contradiction|]. rewrite Hp.
  unfold Legacy.REFRESH_CUTOFF_HOURS. rewrite Z.leb_le. lia.
Qed.

(** ** Sorting *)

Section SortFacts.
Context {A : Type} (cmp : A -> A -> Z).

Lemma sort_insert_perm x l : sort_insert cmp x l ≡ₚ x :: l.
Proof.
  induction l as [|y l IH]; simpl; [reflexivity|].
  destruct (cmp x y <=? 0); [reflexivity|].
  rewrite IH. apply Permutation_swap.
Qed.

Lemma sort_perm l : sort cmp l ≡ₚ l.
Proof.
  induction l as [|x l IH]; simpl; [reflexivity|].
  now rewrite sort_insert_perm, IH.
Qed.

Lemma sort_length l : length (sort cmp l) = length l.
Proof. apply Permutation_length, sort_perm. Qed.

Lemma sort_insert_hd x y l :
  before cmp y x -> HdRel (before cmp) y l ->
  HdRel (before cmp) y (sort_insert cmp x l).
Proof.
  intros Hyx Hl. destruct l as [|z l]; simpl; [now constructor|].
  destruct (cmp x z <=? 0); constructor; [exact Hyx|].
  now inversion Hl.
Qed.

Lemma sort_insert_sorted x l :
  (forall a b, 0 < cmp a b -> cmp b a <= 0) ->
  Sorted (before cmp) l -> Sorted (before cmp) (sort_insert cmp x l).
Proof.
  intros Htot. induction 1 as [|y l Hs IH Hhd]; simpl.
  - repeat constructor.
  - destruct (cmp x y <=? 0) eqn:E.
    + apply Z.leb_le in E. repeat constructor; assumption.
    + apply Z.leb_gt in E. constructor; [exact IH|].
      apply sort_insert_hd; [apply Htot, E | exact Hhd].
Qed.

Lemma sort_sorted l :
  (forall a b, 0 < cmp a b -> cmp b a <= 0) ->
  Sorted (before cmp) (sort cmp l).
Proof.
  intros Htot. induction l as [|x l IH]; simpl; [constructor|].
  now apply sort_insert_sorted.
Qed.

(** A sorted array is left as it is: the sort is stable. *)
Lemma sort_sorted_id l : Sorted (before cmp) l -> sort cmp l = l.
Proof.
  induction 1 as [|x l Hs IH Hhd]; simpl; [reflexivity|].
  fold (sort cmp l). rewrite IH.
  destruct Hhd as [|y l Hxy]; simpl; [reflexivity|].
  apply Z.leb_le in Hxy. now rewrite Hxy.
Qed.

Lemma sorted_without l1 x l2 :
  (forall a b c, before cmp a b -> before cmp b c -> before cmp a c) ->
  Sorted (before cmp) (l1 ++ x :: l2) -> Sorted (before cmp) (l1 ++ l2).
Proof.
  intros Htr Hs.
  assert (Transitive (before cmp)) as Ht by (intros a b c; apply Htr).
  apply Sorted_StronglySorted in Hs; [|exact Ht].
  apply StronglySorted_Sorted.
  induction l1 as [|y l1 IH]; simpl in *.
  - now inversion Hs.
  - inversion Hs as [|? ? Hs' Hall]; subst. constructor; [now apply IH|].
    rewrite Forall_app in *. destruct Hall as [H1 H2].
    split; [exact H1|]. now inversion H2.
Qed.
End SortFacts.

(** ** The sort invariant of the store *)

Section SortInvariant.
Context `{Platform}.
Hypothesis total : compare_total.

Lemma compare_plates_total (a b : Plate) :
  0 < compare_plates a b -> compare_plates b a <= 0.
Proof. apply total. Qed.

Lemma savePlates_sorted arr : sorted_by_text (fst (savePlates arr)).
Proof. apply sort_sorted, compare_plates_total. Qed.

Lemma savePlates_stored arr :
  loadPlates (snd (savePlates arr)) = fst (savePlates arr).
Proof. reflexivity. Qed.

Lemma save_all_sorted (r : Run) :
  exists l, stored (save_all r) = Some (ArrayOf l)
            /\ writes (save_all r) = writes r ++ [l]
            /\ sorted_by_text l.
Proof.
  eexists. split; [reflexivity|]. split; [reflexivity|].
  eapply Sorted_fmap; [|apply sort_sorted].
  - intros a b Hab. exact Hab.
  - intros a b. apply compare_plates_total.
Qed.

Lemma refresh_body_sorted w st0 t i id r :
  run_sorted st0 r -> run_sorted st0 (refresh_body w t i id r).
Proof.
  intros [Hw _]. unfold refresh_body, run_sorted. simpl.
  destruct (save_all_sorted (mark_target w i id r)) as (l & Hst & Hwr & Hl).
  simpl in Hwr, Hst.
  unfold save_all in *. simpl in *. injection Hst as Hst.
  split.
  - apply Forall_app. split; [exact Hw|]. repeat constructor.
    rewrite Hst. exact Hl.
  - right. unfold loadPlates. simpl. rewrite Hst. exact Hl.
Qed.

Lemma refresh_loop_sorted w st0 fuel t : forall i r r',
  run_sorted st0 r -> refresh_loop w fuel t i r = Some r' ->
  run_sorted st0 r'.
Proof.
  induction fuel as [|fuel IH]; intros i r r' Hr; simpl;
    destruct (targets_array t r !! i) as [id|];
    intros Hrun; try discriminate; try (injection Hrun as <-; exact Hr).
  eapply IH; [|exact Hrun]. now apply refresh_body_sorted.
Qed.

Lemma refreshDue_sorted w btn force st r :
  refreshDue w btn force st = Some r -> run_sorted st r.
Proof.
  unfold refreshDue. destruct btn; simpl.
  2:{ intros [= <-]. split; [constructor|now left]. }
  match goal with |- context [Nat.eqb ?n 0] => destruct (Nat.eqb n 0) end.
  - intros [= <-]. split; [constructor|now left].
  - match goal with |- context [refresh_loop w ?n ?t 0 ?r0] =>
      destruct (refresh_loop w n t 0 r0) as [r1|] eqn:E end;
      simpl; [|discriminate].
    intros [= <-]. eapply (refresh_loop_sorted w st) in E.
    + exact E.
    + split; [constructor|now left].
Qed.

(** C5. Given that [localeCompare] is total: the collection that
    [savePlates] persists is non-decreasing by plate text, and so the
    persisted collection is sorted after an upsert, a deletion, a
    migration that changed something, an import, the add form, the
    per-plate refresh, and after every record of a refresh run. These are
    all the writers of the store, and each of them either leaves the
    storage as it was or writes through [savePlates]. *)
Theorem persisted_collection_sorted :
  (forall arr,
     sorted_by_text (fst (savePlates arr))
     /\ loadPlates (snd (savePlates arr)) = fst (savePlates arr))
  /\ (forall entry st,
        sorted_by_text (loadPlates (snd (upsertPlate entry st))))
  /\ (forall key st, sorted_by_text (loadPlates (deleteByKey key st)))
  /\ (forall st,
        migrate st = st \/ sorted_by_text (loadPlates (migrate st)))
  /\ (forall text st st',
        importFile text st = Ok st' -> sorted_by_text (loadPlates st'))
  /\ (forall w text m_state st,
        fst (submit w text m_state st) = st
        \/ sorted_by_text (loadPlates (fst (submit w text m_state st))))
  /\ (forall w key st,
        refreshOne w key st = st
        \/ sorted_by_text (loadPlates (refreshOne w key st)))
  /\ (forall w btn force st r,
        refreshDue w btn force st = Some r ->
        Forall sorted_by_text (writes r)
        /\ (stored r = st \/ sorted_by_text (loadPlates (stored r)))).
Proof.
  split; [|split; [|split; [|split; [|split; [|split; [|split]]]]]].
  - intros arr. split; [apply savePlates_sorted|reflexivity].
  - intros. apply savePlates_sorted.
  - intros. apply savePlates_sorted.
  - intros st. unfold migrate.
    destruct (existsb _ _); [right; apply savePlates_sorted|now left].
  - intros text st st'. unfold importFile.
    destruct (JSON_parse text) as [[|arr]|]; try discriminate.
    intros [= <-]. apply savePlates_sorted.
  - intros w text m_state st. unfold submit.
    destruct (validatePlateText text); [right; apply savePlates_sorted|].
    now left.
  - intros w key st. unfold refreshOne.
    destruct (list_find _ _) as [[i p]|]; [|now left].
    right. apply savePlates_sorted.
  - intros w btn force st r. apply refreshDue_sorted.
Qed.
End SortInvariant.

(** ** Deleting *)

Section DeleteFacts.
Context `{Platform}.

Lemma filter_keeps_all (key : jsstring) (l : list Plate) :
  (forall p, p ∈ l -> mkKey p <> key) ->
  filter (fun p => mkKey p <> key) l = l.
Proof.
  induction l as [|q l IH]; intros Hall; [reflexivity|].
  rewrite filter_cons_True by (apply Hall; left).
  f_equal. apply IH. intros p Hp. apply Hall. now right.
Qed.

Lemma filter_drops_one (key : jsstring) (l1 l2 : list Plate) (p : Plate) :
  mkKey p = key ->
  (forall q, q ∈ l1 ++ l2 -> mkKey q <> key) ->
  filter (fun q => mkKey q <> key) (l1 ++ p :: l2) = l1 ++ l2.
Proof.
  intros Hp Hall. rewrite filter_app, filter_cons_False by tauto.
  rewrite <- filter_app. now apply filter_keeps_all.
Qed.

Lemma deleteByKey_stored (key : jsstring) (st : Storage) :
  loadPlates (deleteByKey key st)
  = sort compare_plates (filter (fun p => mkKey p <> key) (loadPlates st)).
Proof. reflexivity. Qed.

(** On any storage, [deleteByKey] persists the records whose key is not
    [key], sorted again by [savePlates]: when one record has the key, the
    remainder, in its former order if the collection was sorted; when no
    record has the key, a sorted collection as it was. *)
Lemma deleteByKey_remainder (key : jsstring) (st : Storage) :
  (forall l1 p l2,
     loadPlates st = l1 ++ p :: l2 -> mkKey p = key ->
     (forall q, q ∈ l1 ++ l2 -> mkKey q <> key) ->
     loadPlates (deleteByKey key st) = sort compare_plates (l1 ++ l2)
     /\ (compare_transitive -> sorted_by_text (loadPlates st) ->
         loadPlates (deleteByKey key st) = l1 ++ l2))
  /\ (sorted_by_text (loadPlates st) ->
      (forall p, p ∈ loadPlates st -> mkKey p <> key) ->
      loadPlates (deleteByKey key st) = loadPlates st).
Proof.
  rewrite deleteByKey_stored. split.
  - intros l1 p l2 Hst Hp Hall. rewrite Hst.
    rewrite filter_drops_one by assumption. split; [reflexivity|].
    intros Htr Hs. apply sort_sorted_id.
    eapply sorted_without; [|exact Hs].
    intros a b c. apply Htr.
  - intros Hs Hall. rewrite filter_keeps_all by assumption.
    now apply sort_sorted_id.
Qed.

(** What the page has written is sorted, and so is the collection of a
    storage that holds nothing yet. *)
Lemma written_sorted (st : Storage) :
  compare_total -> written st -> sorted_by_text (loadPlates st).
Proof.
  intros Htot [-> | [arr ->]].
  - constructor.
  - now apply savePlates_sorted.
Qed.

(** C8. On the storage as the page leaves it, and for every key: when
    exactly one record has the key, [deleteByKey] removes that record and
    persists the others, in their order; when no record has the key, the
    stored collection is left as it is, element for element. Nothing is
    thrown: the function returns a storage on every input, and that
    storage is again one that [savePlates] wrote. ([localeCompare] is
    taken to be total and transitive.) *)
Theorem deleteByKey_removes_or_keeps (key : jsstring) (st : Storage) :
  compare_total -> compare_transitive -> written st ->
  (forall l1 p l2,
     loadPlates st = l1 ++ p :: l2 -> mkKey p = key ->
     (forall q, q ∈ l1 ++ l2 -> mkKey q <> key) ->
     loadPlates (deleteByKey key st) = l1 ++ l2)
  /\ ((forall p, p ∈ loadPlates st -> mkKey p <> key) ->
      loadPlates (deleteByKey key st) = loadPlates st)
  /\ written (deleteByKey key st).
Proof.
  intros Htot Htr Hw. pose proof (written_sorted st Htot Hw) as Hs.
  destruct (deleteByKey_remainder key st) as [Hone Hnone].
  split; [|split].
  - intros l1 p l2 Hst Hp Hall.
    destruct (Hone l1 p l2 Hst Hp Hall) as [_ Hsame]. now apply Hsame.
  - intros Hall. now apply Hnone.
  - right. eexists. reflexivity.
Qed.
End DeleteFacts.

(** ** Joining and the separator *)

Section JoinFacts.

Lemma bars_app s t : bars (s ++ t) = (bars s + bars t)%nat.
Proof. induction s as [|c s IH]; simpl; [reflexivity|]. rewrite IH. lia. Qed.

Lemma bars_sep : bars sep = 1%nat.
Proof. reflexivity. Qed.

Lemma join_cons2 (x y : jsstring) (l : list jsstring) :
  join sep (x :: y :: l) = x ++ sep ++ join sep (y :: l).
Proof. reflexivity. Qed.

Lemma bars_join (x : jsstring) (l : list jsstring) :
  bars (join sep (x :: l)) = (sum_list (bars <$> x :: l) + length l)%nat.
Proof.
  revert x. induction l as [|y l IH]; intros x.
  - simpl. lia.
  - rewrite join_cons2, !bars_app, bars_sep, IH. simpl. lia.
Qed.

Lemma sum_list_zero (l : list nat) :
  sum_list l = 0%nat -> Forall (fun n => n = 0%nat) l.
Proof.
  induction l as [|n l IH]; simpl; intros Hs; constructor; [lia|].
  apply IH. lia.
Qed.

(** A string without separator is read back up to the first separator. *)
Lemma split_at_bar (x y r r' : jsstring) :
  bars x = 0%nat -> bars y = 0%nat ->
  x ++ sep ++ r = y ++ sep ++ r' -> x = y /\ r = r'.
Proof.
  revert y. induction x as [|c x IH]; intros [|d y] Hx Hy Heq;
    simpl in *.
  - injection Heq as ->. auto.
  - injection Heq as Hd _. subst d. simpl in Hy. discriminate.
  - injection Heq as Hc _. subst c. simpl in Hx. discriminate.
  - injection Heq as -> Heq.
    destruct (d =? bar)%N; [discriminate|]. simpl in *.
    destruct (IH y Hx Hy Heq) as [-> ->]. auto.
Qed.

Lemma join_inj_free (l1 l2 : list jsstring) :
  length l1 = length l2 ->
  Forall (fun s => bars s = 0%nat) l1 ->
  Forall (fun s => bars s = 0%nat) l2 ->
  join sep l1 = join sep l2 -> l1 = l2.
Proof.
  revert l2. induction l1 as [|x l1 IH]; intros [|y l2] Hlen H1 H2 Heq;
    try discriminate; [reflexivity|].
  inversion H1 as [|? ? Hx H1']; inversion H2 as [|? ? Hy H2']; subst.
  destruct l1 as [|x' l1], l2 as [|y' l2]; try discriminate.
  - simpl in Heq. now subst.
  - rewrite !join_cons2 in Heq.
    destruct (split_at_bar _ _ _ _ Hx Hy Heq) as [-> Hrest].
    f_equal. apply IH; auto.
Qed.

(** Equal keys of as many parts, one of them without separator in its
    parts, have the same parts. *)
Lemma join_inj (l1 l2 : list jsstring) :
  length l1 = length l2 ->
  Forall (fun s => bars s = 0%nat) l1 ->
  join sep l1 = join sep l2 -> l1 = l2.
Proof.
  intros Hlen H1 Heq. apply join_inj_free; try assumption.
  assert (sum_list (bars <$> l1) = 0%nat) as Z1.
  { clear -H1. induction H1 as [|x l Hx _ IH]; [reflexivity|].
    rewrite fmap_cons. simpl. rewrite Hx, IH. reflexivity. }
  destruct l1 as [|x1 l1], l2 as [|x2 l2]; try discriminate;
    [constructor|].
  pose proof (bars_join x1 l1) as B1. pose proof (bars_join x2 l2) as B2.
  rewrite Heq in B1. injection Hlen as Hlen.
  assert (sum_list (bars <$> x2 :: l2) = 0%nat) as Z2 by lia.
  apply sum_list_zero in Z2. now rewrite Forall_fmap in Z2.
Qed.
End JoinFacts.

(** ** Upserting *)

Section UpsertFacts.
Context `{Platform}.

Lemma spread_field_owned {A} (o e : field A) :
  e <> Absent -> spread_field o e = e.
Proof. now destruct e. Qed.

Lemma spread_field_part {A B} (g : field A -> B) (o e : field A) :
  g o = g e -> g (spread_field o e) = g e.
Proof. now destruct e. Qed.

Lemma keyParts_spread_owned old e :
  owns_identity e -> keyParts (spread old e) = keyParts e.
Proof.
  intros (H1 & H2 & H3 & H4 & H5 & H6 & H7). unfold keyParts. simpl.
  now rewrite !spread_field_owned by assumption.
Qed.

Lemma keyParts_spread_same old e :
  keyParts old = keyParts e -> keyParts (spread old e) = keyParts e.
Proof.
  unfold keyParts. simpl. intros [= H1 H2 H3 H4 H5 H6 H7].
  rewrite (spread_field_part (fun v => toUpperCase (str_or v [])) _ _ H1).
  rewrite (spread_field_part (fun v => str_or v (lit "ID")) _ _ H2).
  rewrite (spread_field_part
             (fun v => str_or v (lit "PassengerVehicle")) _ _ H3).
  rewrite (spread_field_part (fun v => str_or v (lit "Personalized")) _ _ H4).
  rewrite (spread_field_part (fun v => str_or v (lit "Select")) _ _ H5).
  rewrite (spread_field_part (fun v => str_or v []) _ _ H6).
  rewrite (spread_field_part (fun v => str_or v (lit "Select")) _ _ H7).
  reflexivity.
Qed.

(** The merged record has the key that was looked up. *)
Lemma mkKey_spread old e :
  owns_identity e \/ separator_free e ->
  mkKey old = mkKey e -> mkKey (spread old e) = mkKey e.
Proof.
  intros [Ho | Hf] Hk; unfold mkKey.
  - now rewrite keyParts_spread_owned.
  - rewrite keyParts_spread_same; [reflexivity|].
    symmetry. apply join_inj; [reflexivity|exact Hf|]. now symmetry.
Qed.

Lemma findIndex_Some key l i :
  findIndex key l = Some i ->
  exists old, l !! i = Some old /\ mkKey old = key
              /\ forall j q, l !! j = Some q -> (j < i)%nat -> mkKey q <> key.
Proof.
  unfold findIndex. destruct (list_find _ l) as [[i' old]|] eqn:E;
    [|discriminate].
  intros [= <-]. apply list_find_Some in E as (Hl & Hk & Hlt). eauto.
Qed.

Lemma findIndex_None key l :
  findIndex key l = None -> forall q, q ∈ l -> mkKey q <> key.
Proof.
  unfold findIndex. destruct (list_find _ l) as [[i' old]|] eqn:E;
    [discriminate|].
  intros _. apply list_find_None in E. now apply Forall_forall.
Qed.

Lemma findIndex_first key l i old :
  l !! i = Some old -> mkKey old = key ->
  (forall j q, l !! j = Some q -> (j < i)%nat -> mkKey q <> key) ->
  findIndex key l = Some i.
Proof.
  intros Hl Hk Hlt. unfold findIndex.
  rewrite (proj2 (list_find_Some (fun p => mkKey p = key) l i old));
    [reflexivity|auto].
Qed.

Lemma findIndex_absent key l :
  (forall q, q ∈ l -> mkKey q <> key) -> findIndex key l = None.
Proof.
  intros Hall. unfold findIndex.
  rewrite (proj2 (list_find_None (fun p => mkKey p = key) l));
    [reflexivity|]. now apply Forall_forall.
Qed.

Lemma upsert_list_unique e l :
  owns_identity e \/ separator_free e ->
  unique_keys l -> unique_keys (upsert_list e l).
Proof.
  intros He Hu. unfold upsert_list, unique_keys in *.
  destruct (findIndex (mkKey e) l) as [i|] eqn:E.
  - apply findIndex_Some in E as (old & Hl & Hk & _).
    rewrite (list_lookup_total_correct _ _ _ Hl), list_fmap_insert.
    rewrite mkKey_spread by assumption.
    rewrite list_insert_id; [exact Hu|].
    now rewrite list_lookup_fmap, Hl, <- Hk.
  - pose proof (findIndex_None _ _ E) as Hnone.
    rewrite fmap_app. apply NoDup_app. split; [exact Hu|]. split.
    + intros k Hin Hk. apply list_elem_of_singleton in Hk. subst k.
      apply list_elem_of_fmap in Hin as (q & Hq & Hin).
      now apply (Hnone q).
    + apply NoDup_singleton.
Qed.

Lemma savePlates_unique l :
  unique_keys l -> unique_keys (loadPlates (snd (savePlates l))).
Proof.
  unfold unique_keys. change (loadPlates (snd (savePlates l)))
    with (sort compare_plates l).
  now rewrite (sort_perm compare_plates l).
Qed.

Lemma upsertPlate_unique e st :
  owns_identity e \/ separator_free e ->
  unique_keys (loadPlates st) ->
  unique_keys (loadPlates (snd (upsertPlate e st))).
Proof. intros He Hu. now apply savePlates_unique, upsert_list_unique. Qed.

(** C3 (amended). Starting from a store without two records of the
    same key, a sequence of upserts leaves a store without two records of
    the same key, as long as each entry owns its seven identity
    properties or has no separator in the parts of its key. An upsert
    replaces the first record that has the entry's key by the merge of
    that record and the entry, where it stands, with the entry's
    properties winning; it appends the entry when no record has its key;
    then it saves. *)
Theorem upsert_keeps_keys_unique :
  (forall entries st,
     unique_keys (loadPlates st) ->
     Forall (fun e => owns_identity e \/ separator_free e) entries ->
     unique_keys (loadPlates (upsert_all entries st)))
  /\ (forall entry st,
        loadPlates (snd (upsertPlate entry st))
        = sort compare_plates (upsert_list entry (loadPlates st))
        /\ fst (upsertPlate entry st)
           = sort compare_plates (upsert_list entry (loadPlates st)))
  /\ (forall entry l i old,
        l !! i = Some old -> mkKey old = mkKey entry ->
        (forall j q, l !! j = Some q -> (j < i)%nat ->
                     mkKey q <> mkKey entry) ->
        upsert_list entry l = <[i := spread old entry]> l)
  /\ (forall entry l,
        (forall q, q ∈ l -> mkKey q <> mkKey entry) ->
        upsert_list entry l = l ++ [entry])
  /\ (forall A (o e : field A),
        (e <> Absent -> spread_field o e = e)
        /\ (e = Absent -> spread_field o e = o)).
Proof.
  split; [|split; [|split; [|split]]].
  - intros entries. induction entries as [|e entries IH]; intros st Hu Hall;
      [exact Hu|].
    inversion Hall as [|? ? He Hrest]; subst. simpl. apply IH; [|exact Hrest].
    now apply upsertPlate_unique.
  - intros. split; reflexivity.
  - intros entry l i old Hl Hk Hlt. unfold upsert_list.
    rewrite (findIndex_first _ _ _ _ Hl Hk Hlt).
    now rewrite (list_lookup_total_correct _ _ _ Hl).
  - intros entry l Hall. unfold upsert_list.
    now rewrite findIndex_absent.
  - intros A o e. split; [apply spread_field_owned|now intros ->].
Qed.
End UpsertFacts.

(** ** The forced refresh run *)

Section RefreshFacts.
Context `{Platform} (w : World).

Lemma fmap_lookup_total_seq (h : list Plate) :
  (h !!!.) <$> seq 0 (length h) = h.
Proof.
  apply list_eq. intros i. rewrite list_lookup_fmap.
  destruct (decide (i < length h)%nat) as [Hlt|Hge].
  - rewrite lookup_seq_lt by exact Hlt. simpl.
    now rewrite list_lookup_lookup_total_lt.
  - rewrite (lookup_ge_None_2 h) by lia.
    rewrite (lookup_ge_None_2 (seq 0 (length h)));
      [reflexivity|rewrite length_seq; lia].
Qed.

Lemma Sorted_fmap_inv {A B} (f : A -> B) (R : relation B) (l : list A) :
  Sorted R (f <$> l) -> Sorted (fun a b => R (f a) (f b)) l.
Proof.
  induction l as [|a l IH]; [constructor|].
  rewrite fmap_cons. intros Hs. inversion Hs as [|? ? Hs' Hhd]; subst.
  constructor; [now apply IH|].
  destruct l as [|b l]; constructor. now inversion Hhd.
Qed.

Lemma check_and_mark_text k p :
  plateText (check_and_mark w k p) = plateText p.
Proof. unfold check_and_mark. now destruct (checkAvailability w k p). Qed.

Lemma sorted_imap (f : nat -> Plate -> Plate) (l : list Plate) :
  (forall i p, plateText (f i p) = plateText p) ->
  sorted_by_text l -> sorted_by_text (imap f l).
Proof.
  intros Hf Hs. revert f Hf.
  induction Hs as [|x l Hs IH Hhd]; intros f Hf; [constructor|].
  simpl. constructor; [apply IH; intros; apply Hf|].
  destruct Hhd as [|y l Hxy]; simpl; constructor.
  unfold plates_le, compare_plates in *. simpl. now rewrite !Hf.
Qed.

Lemma checked_upto_sorted k l :
  sorted_by_text l -> sorted_by_text (checked_upto w k l).
Proof.
  apply sorted_imap. intros i p.
  destruct (i <? k)%nat; [apply check_and_mark_text|reflexivity].
Qed.

Lemma checked_upto_length k l : length (checked_upto w k l) = length l.
Proof. apply length_imap. Qed.

Lemma checked_upto_lookup k l i :
  checked_upto w k l !! i
  = (fun p => if (i <? k)%nat then check_and_mark w i p else p) <$> l !! i.
Proof. apply list_lookup_imap. Qed.

Lemma checked_upto_S k l :
  (k < length l)%nat ->
  <[k := check_and_mark w k (checked_upto w k l !!! k)]> (checked_upto w k l)
  = checked_upto w (S k) l.
Proof.
  intros Hk. destruct (lookup_lt_is_Some_2 l k Hk) as [p Hp].
  assert (checked_upto w k l !!! k = p) as ->.
  { apply list_lookup_total_correct.
    rewrite checked_upto_lookup, Hp. simpl.
    now rewrite Nat.ltb_irrefl. }
  apply list_eq. intros i. rewrite !checked_upto_lookup.
  destruct (decide (i = k)) as [->|Hne].
  - rewrite list_lookup_insert_eq by (rewrite checked_upto_length; lia).
    rewrite Hp. simpl.
    now rewrite (proj2 (Nat.ltb_lt k (S k))) by lia.
  - rewrite list_lookup_insert_ne by congruence.
    rewrite checked_upto_lookup. destruct (l !! i) as [q|]; [|reflexivity].
    simpl. destruct (i <? k)%nat eqn:E1, (i <? S k)%nat eqn:E2;
      try reflexivity;
      apply Nat.ltb_lt in E1 || apply Nat.ltb_ge in E1;
      apply Nat.ltb_lt in E2 || apply Nat.ltb_ge in E2; lia.
Qed.

Lemma checked_upto_all l :
  checked_upto w (length l) l = imap (check_and_mark w) l.
Proof.
  apply list_eq. intros i. rewrite checked_upto_lookup, list_lookup_imap.
  destruct (l !! i) as [p|] eqn:E; [|reflexivity]. simpl.
  apply lookup_lt_Some in E.
  now rewrite (proj2 (Nat.ltb_lt i (length l))) by exact E.
Qed.

(** On a heap whose records stand in sorted order, [savePlates(all)]
    leaves the array [all] as it is and persists the heap. *)
Lemma save_all_sorted_heap (r : Run) :
  all r = seq 0 (length (heap r)) -> sorted_by_text (heap r) ->
  all (save_all r) = all r
  /\ stored (save_all r) = Some (ArrayOf (heap r))
  /\ writes (save_all r) = writes r ++ [heap r].
Proof.
  intros Hall Hs. unfold save_all. simpl.
  rewrite sort_sorted_id.
  - rewrite Hall, fmap_lookup_total_seq. auto.
  - rewrite Hall. apply (Sorted_fmap_inv (heap r !!!.) plates_le).
    now rewrite fmap_lookup_total_seq.
Qed.

Lemma refresh_body_targets t i id r :
  length (targets_array t (refresh_body w t i id r))
  = length (targets_array t r).
Proof.
  destruct t; [|reflexivity]. unfold refresh_body. simpl.
  apply sort_length.
Qed.

Lemma refresh_loop_completes t : forall fuel i r,
  (length (targets_array t r) <= i + fuel)%nat ->
  is_Some (refresh_loop w fuel t i r).
Proof.
  induction fuel as [|fuel IH]; intros i r Hlen; simpl;
    destruct (targets_array t r !! i) as [id|] eqn:E; try (eexists; reflexivity).
  - apply lookup_lt_Some in E. lia.
  - apply IH. rewrite refresh_body_targets. lia.
Qed.

(** A run ends, whatever is stored and whatever the checks answer: one
    unit of fuel per target is enough for the loop. *)
Lemma refreshDue_completes btn force st :
  is_Some (refreshDue w btn force st).
Proof.
  unfold refreshDue. destruct btn; simpl; [|eexists; reflexivity].
  match goal with |- context [Nat.eqb ?n 0] => destruct (Nat.eqb n 0) end;
    [eexists; reflexivity|].
  match goal with |- context [refresh_loop w ?n ?t 0 ?r0] =>
    destruct (refresh_loop_completes t n 0 r0) as [r Hr] end.
  - simpl. destruct force; simpl; lia.
  - rewrite Hr. eexists; reflexivity.
Qed.

(** One turn of the forced loop on a sorted collection books the check
    of the record at the iterator's index and nothing else. *)
Lemma forced_body (l : list Plate) (k : nat) (r : Run) :
  sorted_by_text l -> (k < length l)%nat ->
  heap r = checked_upto w k l -> all r = seq 0 (length l) ->
  heap (refresh_body w SameArray k k r) = checked_upto w (S k) l
  /\ all (refresh_body w SameArray k k r) = seq 0 (length l)
  /\ stored (refresh_body w SameArray k k r)
     = Some (ArrayOf (checked_upto w (S k) l))
  /\ writes (refresh_body w SameArray k k r)
     = writes r ++ [checked_upto w (S k) l]
  /\ shown (refresh_body w SameArray k k r)
     = shown r ++ [Progress (S k) (length l)].
Proof.
  intros Hs Hk Hheap Hall.
  assert (heap (mark_target w k k r) = checked_upto w (S k) l) as Hh0.
  { simpl. rewrite Hheap. now apply checked_upto_S. }
  destruct (save_all_sorted_heap (mark_target w k k r)) as (Ha1 & Hst1 & Hw1).
  { rewrite Hh0, checked_upto_length. exact Hall. }
  { rewrite Hh0. now apply checked_upto_sorted. }
  rewrite Hh0 in Hst1, Hw1.
  unfold refresh_body, setRunStatus, targets_array.
  cbn [heap all stored writes shown].
  rewrite Ha1, Hst1, Hw1.
  change (heap (save_all (mark_target w k k r)))
    with (heap (mark_target w k k r)).
  rewrite Hh0.
  change (all (mark_target w k k r)) with (all r).
  change (writes (mark_target w k k r)) with (writes r).
  change (shown (save_all (mark_target w k k r))) with (shown r).
  rewrite Hall, length_seq. repeat split; reflexivity.
Qed.

Lemma forced_loop (l : list Plate) :
  sorted_by_text l ->
  forall m k r,
    (k + m = length l)%nat ->
    heap r = checked_upto w k l -> all r = seq 0 (length l) ->
    exists r',
      refresh_loop w m SameArray k r = Some r'
      /\ heap r' = checked_upto w (length l) l
      /\ all r' = seq 0 (length l)
      /\ writes r'
         = writes r ++ ((fun j => checked_upto w (S j) l) <$> seq k m)
      /\ shown r'
         = shown r ++ ((fun j => Progress (S j) (length l)) <$> seq k m)
      /\ stored r' = match m with
                     | O => stored r
                     | S _ => Some (ArrayOf (checked_upto w (length l) l))
                     end.
Proof.
  intros Hs. induction m as [|m IH]; intros k r Hk Hheap Hall.
  - exists r. simpl. rewrite Hall, lookup_ge_None_2
      by (rewrite length_seq; lia).
    replace (length l) with k by lia.
    rewrite !app_nil_r. repeat split; auto.
  - simpl. rewrite Hall, lookup_seq_lt by lia. simpl.
    destruct (forced_body l k r) as (Hh1 & Ha1 & Hst1 & Hw1 & Hsh1);
      [assumption|lia|assumption|assumption|].
    destruct (IH (S k) (refresh_body w SameArray k k r)) as
      (r' & Hrun & Hh' & Ha' & Hw' & Hsh' & Hst');
      [lia|assumption|assumption|].
    exists r'. split; [exact Hrun|]. split; [exact Hh'|].
    split; [exact Ha'|]. split; [|split].
    + rewrite Hw', Hw1, <- app_assoc. reflexivity.
    + rewrite Hsh', Hsh1, <- app_assoc. reflexivity.
    + destruct m; [|exact Hst'].
      rewrite Hst', Hst1. do 3 f_equal. lia.
Qed.
Lemma checked_upto_0 l : checked_upto w 0 l = l.
Proof.
  apply list_eq. intros i. rewrite checked_upto_lookup.
  now destruct (l !! i).
Qed.

Lemma check_and_mark_Ok k p s :
  checkAvailability w k p = Ok s ->
  check_and_mark w k p
  = assign_check_fields
      (Val s) (Val (toISOString (clock w k)))
      (Val (arr_or (history p) []
            ++ [{| status := s; checkedUtc := toISOString (clock w k);
                   note := None |}])) p.
Proof. unfold check_and_mark. now intros ->. Qed.

Lemma check_and_mark_Throw k p e :
  checkAvailability w k p = Throw e -> message e <> [] ->
  check_and_mark w k p
  = assign_check_fields
      (Val (lit "Error")) (Val (toISOString (clock w k)))
      (Val (arr_or (history p) []
            ++ [{| status := lit "Error";
                   checkedUtc := toISOString (clock w k);
                   note := Some (message e) |}])) p.
Proof.
  unfold check_and_mark, error_text. intros -> Hm.
  destruct (message e) as [|c m] eqn:E; [contradiction|reflexivity].
Qed.

Lemma check_and_mark_one_entry k p :
  exists e,
    history (check_and_mark w k p) = Val (arr_or (history p) [] ++ [e])
    /\ lastStatus (check_and_mark w k p) = Val (status e)
    /\ lastCheckedUtc (check_and_mark w k p) = Val (checkedUtc e).
Proof.
  unfold check_and_mark.
  destruct (checkAvailability w k p); eexists; repeat split.
Qed.

(** C1 (amended). A forced run over a stored collection that is not
    empty and is sorted by plate text, as every saved collection is,
    runs to its end whatever the checks answer. It books one check per
    record, the [i]-th check on the [i]-th record: one history entry is
    appended, with the status returned and no note on success, with
    status [Error] and the message of the error (when that is not empty)
    as note on failure, and [lastStatus] and [lastCheckedUtc] are set to
    the status and the time of that entry. The whole collection is
    written after each record, and the progress shown goes from 0 of [n]
    up by one after each record to [n] of [n], before [Done]. *)
Theorem forced_refresh_books_every_record (st : Storage) :
  loadPlates st <> [] -> sorted_by_text (loadPlates st) ->
  exists r,
    refreshDue w true true st = Some r
    /\ stored r = Some (ArrayOf (imap (check_and_mark w) (loadPlates st)))
    /\ writes r
       = (fun k => checked_upto w (S k) (loadPlates st))
           <$> seq 0 (length (loadPlates st))
    /\ shown r
       = Progress 0 (length (loadPlates st))
         :: ((fun k => Progress (S k) (length (loadPlates st)))
               <$> seq 0 (length (loadPlates st)))
         ++ [Done]
    /\ (forall k p,
          (exists e,
             history (check_and_mark w k p)
             = Val (arr_or (history p) [] ++ [e])
             /\ lastStatus (check_and_mark w k p) = Val (status e)
             /\ lastCheckedUtc (check_and_mark w k p) = Val (checkedUtc e))
          /\ (forall s,
                checkAvailability w k p = Ok s ->
                check_and_mark w k p
                = assign_check_fields
                    (Val s) (Val (toISOString (clock w k)))
                    (Val (arr_or (history p) []
                          ++ [{| status := s;
                                 checkedUtc := toISOString (clock w k);
                                 note := None |}])) p)
          /\ (forall e,
                checkAvailability w k p = Throw e -> message e <> [] ->
                check_and_mark w k p
                = assign_check_fields
                    (Val (lit "Error")) (Val (toISOString (clock w k)))
                    (Val (arr_or (history p) []
                          ++ [{| status := lit "Error";
                                 checkedUtc := toISOString (clock w k);
                                 note := Some (message e) |}])) p)).
Proof.
  intros Hne Hs. set (l := loadPlates st) in *.
  destruct (forced_loop l Hs (length l) 0
              (setRunStatus (Progress 0 (length l))
                 {| heap := l; all := seq 0 (length l); stored := st;
                    writes := []; shown := [] |}))
    as (r' & Hrun & Hh & Ha & Hw & Hsh & Hst);
    [lia|symmetry; apply checked_upto_0|reflexivity|].
  assert ((length l =? 0)%nat = false) as Hlen.
  { apply Nat.eqb_neq. now destruct l. }
  exists (setRunStatus Done r'). split; [|split; [|split; [|split]]].
  - unfold refreshDue. fold l. cbn [negb targets_array all].
    rewrite length_seq, Hlen, Hrun. reflexivity.
  - cbn [setRunStatus stored]. rewrite Hst.
    destruct (length l) eqn:En; [discriminate|].
    rewrite <- En, checked_upto_all. reflexivity.
  - exact Hw.
  - cbn [setRunStatus shown]. rewrite Hsh. reflexivity.
  - intros k p. split; [apply check_and_mark_one_entry|].
    split; [apply check_and_mark_Ok|apply check_and_mark_Throw].
Qed.
End RefreshFacts.

(** ** The reference platform meets what the page needs *)

Section ReferenceFacts.
Import Reference.

Lemma upper_char_plain c : is_upper_or_digit c = true -> upper_char c = c.
Proof.
  unfold is_upper_or_digit, upper_char. intros Hc.
  destruct ((97 <=? c)%N && (c <=? 122)%N) eqn:E; [|reflexivity].
  apply andb_true_iff in E as [E1 E2].
  apply N.leb_le in E1. apply N.leb_le in E2.
  apply orb_true_iff in Hc as [Hc|Hc]; apply andb_true_iff in Hc as [H1 H2];
    apply N.leb_le in H1; apply N.leb_le in H2; lia.
Qed.

Lemma reference_upper_fixes : @upper_fixes_plain platform.
Proof.
  intros t Ht. simpl. unfold upper.
  induction Ht as [|c t Hc _ IH]; simpl; [reflexivity|].
  now rewrite upper_char_plain, IH.
Qed.

Lemma lex_compare_antisym a b :
  lex_compare b a = CompOpp (lex_compare a b).
Proof.
  revert b. induction a as [|x a IH]; intros [|y b]; simpl;
    try reflexivity.
  rewrite (N.compare_antisym x y).
  destruct (x ?= y)%N; simpl; [apply IH|reflexivity|reflexivity].
Qed.

Lemma lex_compare_trans a b c :
  lex_compare a b <> Gt -> lex_compare b c <> Gt -> lex_compare a c <> Gt.
Proof.
  revert b c. induction a as [|x a IH]; intros [|y b] [|z c]; simpl;
    try congruence.
  destruct (N.compare_spec x y), (N.compare_spec y z),
    (N.compare_spec x z); try congruence; try lia.
  apply IH.
Qed.

Lemma sign_le c : sign c <= 0 <-> c <> Gt.
Proof. destruct c; simpl; split; intros; try congruence; lia. Qed.

Lemma reference_compare_total : @compare_total platform.
Proof.
  intros a b. simpl. unfold compare_base.
  rewrite (lex_compare_antisym (upper a) (upper b)).
  destruct (lex_compare (upper a) (upper b)); simpl; lia.
Qed.

Lemma reference_compare_transitive : @compare_transitive platform.
Proof.
  intros a b c. simpl. unfold compare_base. rewrite !sign_le.
  apply lex_compare_trans.
Qed.
End ReferenceFacts.

(** ** The statements at work on concrete stores *)

Section Witnesses.
Import Reference Scenario.

Lemma normalize_idempotent_bounded_witness :
  (length (normalizePlateText (Val (lit "too-long-plate"))) <= 7)%nat
  /\ normalizePlateText (Val (normalizePlateText (Val (lit "too-long-plate"))))
     = normalizePlateText (Val (lit "too-long-plate")).
Proof.
  destruct (@normalize_idempotent_bounded platform (lit "too-long-plate"))
    as (Hlen & _ & Hidem).
  split; [exact Hlen|]. apply Hidem, reference_upper_fixes.
Defined.

Lemma validatePlateText_rejects_empty_witness :
  validatePlateText (lit "-- --") = Throw (Error validation_message)
  /\ fst (submit one_failure (lit "-- --") (lit "CA") abc) = abc
  /\ validatePlateText (lit "c0llect") = Ok (lit "C0LLECT").
Proof.
  split; [|split].
  - apply (@validatePlateText_rejects_empty platform (lit "-- --")).
    reflexivity.
  - apply (@validatePlateText_rejects_empty platform (lit "-- --")).
    reflexivity.
  - apply (@validatePlateText_rejects_empty platform (lit "c0llect")).
    vm_compute. discriminate.
Defined.

Lemma loadPlates_defensive_witness : loadPlates (Some Corrupt) = [].
Proof.
  apply (proj2 (proj2 (proj2 (proj2 (proj2 loadPlates_defensive))))
           (Some Corrupt) SyntaxError).
  reflexivity.
Defined.

Lemma mkKey_stable_witness :
  mkKey (checked_at "ABC" "2024-02-01T00:00:00.000Z")
  = mkKey (plate "ABC" "ID").
Proof.
  apply (proj1 (@mkKey_stable platform)). repeat split.
Defined.

Lemma markChecked_summary_in_sync_witness :
  exists e,
    history (markChecked february_1_noon empty_object (lit "Available") None)
    = Val [e].
Proof.
  destruct (@markChecked_summary_in_sync platform february_1_noon
              empty_object (lit "Available") None)
    as (e & _ & _ & _ & _ & _ & Hone).
  exists e. apply Hone. left. reflexivity.
Defined.

Lemma isDue_calendar_month_witness :
  isDue february_1_noon (checked_at "ABC" "2024-01-31T23:59:59.999Z") = true
  /\ isDue february_1_noon (checked_at "ABC" "2024-02-01T00:00:00.000Z")
     = false.
Proof.
  split.
  - apply (proj1 (proj2 (@isDue_calendar_month platform february_1_noon
                           (checked_at "ABC" "2024-01-31T23:59:59.999Z")))
             (lit "2024-01-31T23:59:59.999Z") 1706745599999);
      vm_compute; reflexivity.
  - apply (proj2 (proj2 (@isDue_calendar_month platform february_1_noon
                           (checked_at "ABC" "2024-02-01T00:00:00.000Z")))
             (lit "2024-02-01T00:00:00.000Z") 1706745600000);
      vm_compute; (reflexivity || discriminate).
Defined.
Lemma scenario_sorted :
  sorted_by_text (loadPlates three_plates)
  /\ sorted_by_text (loadPlates abc).
Proof.
  split; repeat constructor; unfold plates_le; vm_compute; discriminate.
Qed.

Lemma persisted_collection_sorted_witness :
  sorted_by_text (loadPlates (snd (upsertPlate (plate "ABC" "ID") unsorted)))
  /\ sorted_by_text (loadPlates (deleteByKey (lit "none") unsorted)).
Proof.
  split;
    apply (@persisted_collection_sorted platform reference_compare_total).
Defined.

Lemma abc_written : written abc.
Proof.
  right. exists [plate "A" "ID"; plate "B" "ID"; plate "C" "ID"].
  vm_compute. reflexivity.
Qed.

Lemma deleteByKey_removes_or_keeps_witness :
  loadPlates (deleteByKey (mkKey (plate "B" "ID")) abc)
  = [plate "A" "ID"; plate "C" "ID"]
  /\ loadPlates (deleteByKey (lit "none") abc) = loadPlates abc.
Proof.
  split.
  - apply (proj1 (@deleteByKey_removes_or_keeps platform
                    (mkKey (plate "B" "ID")) abc
                    reference_compare_total reference_compare_transitive
                    abc_written)
             [plate "A" "ID"] (plate "B" "ID") [plate "C" "ID"]
             eq_refl eq_refl).
    intros q Hq. apply elem_of_cons in Hq as [->|Hq];
      [vm_compute; discriminate|].
    apply elem_of_cons in Hq as [->|Hq]; [vm_compute; discriminate|].
    now apply elem_of_nil in Hq.
  - apply (proj1 (proj2 (@deleteByKey_removes_or_keeps platform
                           (lit "none") abc
                           reference_compare_total
                           reference_compare_transitive abc_written))).
    intros q Hq.
    repeat (apply elem_of_cons in Hq as [->|Hq];
            [vm_compute; discriminate|]).
    now apply elem_of_nil in Hq.
Defined.

Lemma upsert_keeps_keys_unique_witness :
  unique_keys
    (loadPlates
       (upsert_all [plate "ABC" "ID"; plate "ABC" "ID"; plate "ABC" "CA"]
                   None)).
Proof.
  apply (proj1 (@upsert_keeps_keys_unique platform)).
  - constructor.
  - repeat constructor; left; repeat split; discriminate.
Defined.

Lemma forced_refresh_books_every_record_witness :
  exists r,
    refreshDue one_failure true true three_plates = Some r
    /\ shown r
       = [Progress 0 3; Progress 1 3; Progress 2 3; Progress 3 3; Done]
    /\ lastStatus <$> loadPlates (stored r)
       = [Val (lit "Available"); Val (lit "Error"); Val (lit "Unavailable")]
    /\ (fun p => length (arr_or (history p) [])) <$> loadPlates (stored r)
       = [1; 1; 1]%nat.
Proof.
  destruct (@forced_refresh_books_every_record platform one_failure
              three_plates) as (r & Hrun & Hst & _ & Hsh & _).
  - discriminate.
  - apply scenario_sorted.
  - exists r. split; [exact Hrun|]. rewrite Hsh, Hst.
    repeat split; vm_compute; reflexivity.
Defined.

(** The validation message of the source is not the one the
    specification words. *)
Lemma validation_message_counterexample :
  validatePlateText [] = Throw (Error validation_message)
  /\ validation_message <> specified_validation_message.
Proof. split; [reflexivity|vm_compute; discriminate]. Qed.

(** Storage that holds a collection out of order is not storage that the
    page wrote; a deletion by a key that no record has would sort it. *)
Example deleteByKey_sorts_foreign_storage :
  ~ written unsorted
  /\ Forall (fun p => mkKey p <> lit "none") (loadPlates unsorted)
  /\ loadPlates (deleteByKey (lit "none") unsorted) <> loadPlates unsorted.
Proof.
  split; [|split].
  - intros Hw.
    pose proof (written_sorted unsorted reference_compare_total Hw) as Hs.
    apply Sorted_inv in Hs as [_ Hhd]. apply HdRel_inv in Hhd.
    revert Hhd. unfold plates_le. vm_compute. intros Hle. now apply Hle.
  - repeat constructor; vm_compute; discriminate.
  - vm_compute. discriminate.
Qed.

(** The older copy of the page does not follow the calendar month. A
    record checked in the last millisecond of January is not due at noon
    on the first of February, the month after; and a record checked at
    the start of the first of February is due at noon on the second, in
    the month and year of its check. *)
Lemma legacy_isDue_month_counterexample :
  (Date_parse (lit "2024-01-31T23:59:59.999Z") = Some 1706745599999
   /\ (getFullYear february_1_noon, getMonth february_1_noon)
      = month_after (getFullYear 1706745599999, getMonth 1706745599999)
   /\ Legacy.isDue february_1_noon
        (checked_at "ABC" "2024-01-31T23:59:59.999Z") = false)
  /\ (Date_parse (lit "2024-02-01T00:00:00.000Z") = Some 1706745600000
      /\ getFullYear (february_1_noon + 86400000)
         = getFullYear 1706745600000
      /\ getMonth (february_1_noon + 86400000) = getMonth 1706745600000
      /\ Legacy.isDue (february_1_noon + 86400000)
           (checked_at "ABC" "2024-02-01T00:00:00.000Z") = true).
Proof. repeat split; vm_compute; reflexivity. Qed.

(** An entry without [state] takes the place of a record whose key it
    shares through a separator inside a value; the merged record has the
    key of the other record of the store. *)
Lemma upsert_collision_counterexample :
  unique_keys (loadPlates colliding)
  /\ mkKey <$> loadPlates (upsert_all [stateless_entry] colliding)
     = [lit "A|ID|X|X|Y|Personalized|Select||Select";
        lit "A|ID|X|X|Y|Personalized|Select||Select"]
  /\ ~ unique_keys (loadPlates (upsert_all [stateless_entry] colliding)).
Proof.
  split; [|split].
  - unfold unique_keys. apply (bool_decide_unpack _). vm_compute.
    reflexivity.
  - vm_compute. reflexivity.
  - unfold unique_keys. apply (bool_decide_eq_false_1 _). vm_compute.
    reflexivity.
Qed.

(** A forced run over a stored collection that is not sorted checks the
    record [B] twice and the record [A] never; and an error with an empty
    message is noted by its name. *)
Lemma forced_refresh_unsorted_counterexample :
  (fun r => (fun p => (plateText p, length (arr_or (history p) [])))
              <$> loadPlates (stored r))
    <$> refreshDue always_available true true unsorted
  = Some [(Val (lit "A"), 0%nat); (Val (lit "B"), 2%nat)]
  /\ note <$> last (arr_or (history (check_and_mark silent_failure 0
                                       (plate "A" "ID"))) [])
     = Some (Some (lit "Error")).
Proof. split; vm_compute; reflexivity. Qed.
(** The two copies of the page disagree half a day after a check made in
    the last second of January. *)
Example month_policy_and_rolling_policy :
  isDue february_1_noon (checked_at "ABC" "2024-01-31T23:59:59.999Z") = true
  /\ Legacy.isDue february_1_noon
       (checked_at "ABC" "2024-01-31T23:59:59.999Z") = false.
Proof. split; vm_compute; reflexivity. Qed.

(** A check made on the last day of a year is followed by a due record on
    the first day of the next. *)
Example due_after_new_year :
  isDue 1704067200000 (checked_at "ABC" "2023-12-31T12:00:00.000Z") = true.
Proof. vm_compute. reflexivity. Qed.

(** The same run over the same unsorted collection without [force]: the
    targets are an array of their own and every record is checked once. *)
Example due_refresh_unsorted :
  (fun r => (fun p => (plateText p, length (arr_or (history p) [])))
              <$> loadPlates (stored r))
    <$> refreshDue always_available true false unsorted
  = Some [(Val (lit "A"), 1%nat); (Val (lit "B"), 1%nat)].
Proof. vm_compute. reflexivity. Qed.

(** Adding [too-long-plate] stores its first seven normalised code
    units. *)
Example add_too_long_plate :
  plateText <$> loadPlates
    (fst (submit always_available (lit "too-long-plate") (lit "ID") None))
  = [Val (lit "T00L0NG")].
Proof. vm_compute. reflexivity. Qed.

(** Importing a record without facets stores it with every default and
    with normalised plate text. *)
Example import_applies_defaults :
  importFile
    (ArrayOf [bare "ab-1"]) None
  = Ok (Some (ArrayOf
          [{| plateText := Val (lit "AB1");
              state := Val (lit "ID");
              selectedVehicleType := Val (lit "PassengerVehicle");
              selectedKindOfPlate := Val (lit "Personalized");
              selectedPlateProgram := Val (lit "Select");
              selectedPlateProgramID := Val [];
              selectedPlateProgramSubCategory := Val (lit "Select");
              lastStatus := Absent;
              lastCheckedUtc := Absent;
              history := Absent |}])).
Proof. vm_compute. reflexivity. Qed.
End Witnesses.


(** * Properties of the rest of the page *)

(** ** Validated text *)

Section TextFacts.
Context `{Platform}.

Lemma O_to_zero_not_O c : O_to_zero c = c -> c <> 79%N.
Proof.
  unfold O_to_zero. destruct (c =? 79)%N eqn:E.
  - apply N.eqb_eq in E. subst c. discriminate.
  - intros _. now apply N.eqb_neq in E.
Qed.

Lemma O_to_zero_fixed c : c <> 79%N -> O_to_zero c = c.
Proof.
  intros Hc. unfold O_to_zero. apply N.eqb_neq in Hc. now rewrite Hc.
Qed.

Lemma normalize_normal (s : field jsstring) :
  normal_text (normalizePlateText s).
Proof.
  split; [apply normalize_length|].
  eapply Forall_impl; [apply normalize_chars|].
  intros c [Hc Ho]. split; [exact Hc|now apply O_to_zero_not_O].
Qed.

Lemma normalize_fixed (t : jsstring) :
  upper_fixes_plain -> normal_text t -> normalizePlateText (Val t) = t.
Proof.
  intros Hup [Hlen Hc]. unfold normalizePlateText.
  rewrite str_or_empty, Hup.
  - rewrite map_fixed, filter_all, take_ge; [reflexivity|exact Hlen| |].
    + eapply Forall_impl; [exact Hc|]. now intros c [? _].
    + eapply Forall_impl; [exact Hc|]. intros c [_ ?].
      now apply O_to_zero_fixed.
  - eapply Forall_impl; [exact Hc|]. now intros c [? _].
Qed.

(** X1. Text that [validatePlateText] accepts has one to seven code
    units, each a capital letter other than O or a digit, as the error
    message announces; and where upper-casing leaves such text alone,
    validating accepted text again returns it unchanged. *)
Theorem validated_text_shape (s t : jsstring) :
  validatePlateText s = Ok t ->
  (1 <= length t <= 7)%nat
  /\ Forall (fun c => is_upper_or_digit c = true /\ c <> 79%N) t
  /\ (upper_fixes_plain -> validatePlateText t = Ok t).
Proof.
  unfold validatePlateText.
  pose proof (normalize_normal (Val s)) as [Hlen Hc].
  destruct (normalizePlateText (Val s)) as [|c n] eqn:E; [discriminate|].
  intros [= <-]. split; [simpl in *; lia|]. split; [exact Hc|].
  intros Hup. rewrite normalize_fixed; [reflexivity|exact Hup|].
  now split.
Qed.
End TextFacts.

(** ** The key without separators *)

Section KeyInjective.
Context `{Platform}.

(** X2. When the parts of a record's key hold no separator, another
    record has the same key only if it has the same seven parts: the
    state and the five facets after defaulting agree, and the plate texts
    agree after upper-casing. *)
Theorem mkKey_injective_without_separator (p q : Plate) :
  separator_free p -> mkKey p = mkKey q -> keyParts p = keyParts q.
Proof.
  intros Hfree Hkey. apply join_inj; [reflexivity|exact Hfree|exact Hkey].
Qed.
End KeyInjective.

(** ** Saving *)

Section SaveFacts.
Context `{Platform}.

Lemma sort_idempotent {A} (cmp : A -> A -> Z) (l : list A) :
  (forall a b, 0 < cmp a b -> cmp b a <= 0) ->
  sort cmp (sort cmp l) = sort cmp l.
Proof. intros Htot. apply sort_sorted_id, sort_sorted, Htot. Qed.

(** X3. [savePlates] persists the records it is given, each as often as
    it was given, in the order it leaves the array in; it leaves a sorted
    array as it is; and, [localeCompare] being total, saving what was
    saved changes nothing. *)
Theorem savePlates_keeps_records (arr : list Plate) :
  fst (savePlates arr) ≡ₚ arr
  /\ loadPlates (snd (savePlates arr)) = fst (savePlates arr)
  /\ (sorted_by_text arr -> fst (savePlates arr) = arr)
  /\ (compare_total ->
      savePlates (fst (savePlates arr)) = savePlates arr).
Proof.
  split; [apply sort_perm|]. split; [reflexivity|]. split.
  - intros Hs. now apply sort_sorted_id.
  - intros Htot. unfold savePlates. simpl.
    rewrite sort_idempotent; [reflexivity|]. intros a b. apply Htot.
Qed.

Lemma sort_insert_stable {A} (cmp : A -> A -> Z) (P : A -> Prop)
    `{!forall x, Decision (P x)} (x : A) (l : list A) :
  (forall y, P x -> P y -> cmp x y <= 0) ->
  filter P (sort_insert cmp x l) = filter P (x :: l).
Proof.
  intros Hle. induction l as [|y l IH]; simpl; [reflexivity|].
  destruct (cmp x y <=? 0) eqn:E; [reflexivity|].
  apply Z.leb_gt in E.
  destruct (decide (P x)) as [Hx|Hx].
  - assert (~ P y) as Hy by (intros Hy; specialize (Hle y Hx Hy); lia).
    rewrite (filter_cons_False P y) by exact Hy.
    rewrite IH. rewrite (filter_cons_True P x) by exact Hx.
    rewrite (filter_cons_True P x) by exact Hx.
    now rewrite (filter_cons_False P y) by exact Hy.
  - rewrite (filter_cons_False P x) by exact Hx.
    rewrite (filter_cons_False P x) in IH by exact Hx.
    destruct (decide (P y)) as [Hy|Hy].
    + rewrite !(filter_cons_True P y) by exact Hy. now rewrite IH.
    + rewrite !(filter_cons_False P y) by exact Hy. exact IH.
Qed.

Lemma sort_stable {A} (cmp : A -> A -> Z) (P : A -> Prop)
    `{!forall x, Decision (P x)} (l : list A) :
  (forall x y, P x -> P y -> cmp x y <= 0) ->
  filter P (sort cmp l) = filter P l.
Proof.
  intros Hle. induction l as [|x l IH]; [reflexivity|].
  simpl. fold (sort cmp l). rewrite sort_insert_stable by (apply Hle).
  destruct (decide (P x)) as [Hx|Hx].
  - rewrite !(filter_cons_True P x) by exact Hx. now rewrite IH.
  - rewrite !(filter_cons_False P x) by exact Hx. exact IH.
Qed.

(** X4. Saving is stable: the records that have one and the same plate
    text, for instance a plate watched in two states, are persisted in
    the order they had in the array. *)
Theorem savePlates_stable (arr : list Plate) (t : jsstring) :
  compare_reflexive ->
  filter (fun p => sort_text p = t) (fst (savePlates arr))
  = filter (fun p => sort_text p = t) arr.
Proof.
  intros Hrefl. apply sort_stable. intros x y Hx Hy.
  unfold compare_plates. fold (sort_text x) (sort_text y).
  rewrite Hx, Hy. apply Hrefl.
Qed.
End SaveFacts.

(** ** Deleting, replacing and the handlers that upsert *)

Section ReplaceFacts.
Context `{Platform}.

(** X5. [deleteByKey] removes every record that has the key, also when
    several have it, and persists every other record, each as often as it
    was stored; deleting by the same key again changes nothing (given
    that [localeCompare] is total). *)
Theorem deleteByKey_removes_all (key : jsstring) (st : Storage) :
  (forall p, p ∈ loadPlates (deleteByKey key st) -> mkKey p <> key)
  /\ loadPlates (deleteByKey key st)
     ≡ₚ filter (fun p => mkKey p <> key) (loadPlates st)
  /\ (compare_total ->
      deleteByKey key (deleteByKey key st) = deleteByKey key st).
Proof.
  assert (forall p, p ∈ loadPlates (deleteByKey key st) -> mkKey p <> key)
    as Hgone.
  { intros p. rewrite deleteByKey_stored, sort_perm, list_elem_of_filter.
    tauto. }
  split; [exact Hgone|]. split.
  - rewrite deleteByKey_stored. apply sort_perm.
  - intros Htot. unfold deleteByKey at 1. unfold savePlates. simpl.
    rewrite filter_keeps_all by exact Hgone.
    rewrite deleteByKey_stored, sort_idempotent; [reflexivity|].
    intros a b. apply Htot.
Qed.

Lemma spread_owned (old e : Plate) : owns_all e -> spread old e = e.
Proof.
  intros ((H1 & H2 & H3 & H4 & H5 & H6 & H7) & H8 & H9 & H10).
  destruct e. unfold spread. simpl in *.
  now rewrite !spread_field_owned by assumption.
Qed.

Lemma filter_other_keys (l : list Plate) (i : nat) (old : Plate) :
  unique_keys l -> l !! i = Some old ->
  filter (fun p => mkKey p <> mkKey old) l = delete i l.
Proof.
  intros Hu Hi. rewrite delete_take_drop.
  rewrite <- (take_drop_middle l i old Hi) at 1.
  unfold unique_keys in Hu.
  rewrite <- (take_drop_middle l i old Hi), fmap_app, fmap_cons in Hu.
  apply NoDup_app in Hu as (_ & Hfront & Hback).
  apply NoDup_cons in Hback as [Hback _].
  rewrite filter_app, filter_cons_False by tauto.
  rewrite !filter_keeps_all; [reflexivity| |].
  - intros p Hp Hk. apply Hback. rewrite <- Hk.
    now apply list_elem_of_fmap_2.
  - intros p Hp Hk. apply (Hfront (mkKey p)).
    + now apply list_elem_of_fmap_2.
    + rewrite Hk. left.
Qed.

Lemma upsert_list_owned (e : Plate) (l : list Plate) :
  owns_all e -> unique_keys l ->
  upsert_list e l ≡ₚ e :: filter (fun p => mkKey p <> mkKey e) l.
Proof.
  intros He Hu. unfold upsert_list.
  destruct (findIndex (mkKey e) l) as [i|] eqn:E.
  - apply findIndex_Some in E as (old & Hl & Hk & _).
    rewrite spread_owned by exact He.
    rewrite insert_take_drop by (eapply lookup_lt_Some; exact Hl).
    rewrite <- Hk, (filter_other_keys l i old Hu Hl), delete_take_drop.
    symmetry. apply Permutation_middle.
  - rewrite filter_keeps_all by (apply findIndex_None; exact E).
    symmetry. apply Permutation_cons_append.
Qed.

(** X6. On a store without two records of the same key, upserting an
    entry that owns all ten properties persists that very entry and every
    stored record with another key, and nothing else: a stored record
    with the entry's key is replaced as a whole. *)
Theorem upsertPlate_replaces (e : Plate) (st : Storage) :
  owns_all e -> unique_keys (loadPlates st) ->
  loadPlates (snd (upsertPlate e st))
  ≡ₚ e :: filter (fun p => mkKey p <> mkKey e) (loadPlates st).
Proof.
  intros He Hu.
  change (loadPlates (snd (upsertPlate e st)))
    with (sort compare_plates (upsert_list e (loadPlates st))).
  rewrite sort_perm. now apply upsert_list_owned.
Qed.

Lemma check_and_mark_same_identity w k p :
  same_identity p (check_and_mark w k p).
Proof.
  unfold check_and_mark. destruct (checkAvailability w k p); repeat split.
Qed.

Lemma check_and_mark_key w k p : mkKey (check_and_mark w k p) = mkKey p.
Proof. apply mkKey_same_identity, check_and_mark_same_identity. Qed.

Lemma check_and_mark_owns w k t m :
  owns_all (check_and_mark w k (new_entry t m)).
Proof.
  unfold check_and_mark.
  destruct (checkAvailability w k (new_entry t m));
    repeat split; discriminate.
Qed.

(** X7. When the add form accepts plate text, on a store without two
    records of the same key, it persists the new entry with the validated
    text, the chosen state (ID when none is chosen) and a history of one
    entry, next to every stored record with another key. A stored record
    with the same key is replaced, its history included. *)
Theorem submit_stores_entry (w : World) (text t m_state : jsstring)
    (st : Storage) :
  validatePlateText text = Ok t -> unique_keys (loadPlates st) ->
  loadPlates (fst (submit w text m_state st))
  ≡ₚ check_and_mark w 0 (new_entry t m_state)
     :: filter (fun p => mkKey p <> mkKey (new_entry t m_state))
               (loadPlates st)
  /\ plateText (check_and_mark w 0 (new_entry t m_state)) = Val t
  /\ state (check_and_mark w 0 (new_entry t m_state))
     = Val (str_or (Val m_state) (lit "ID"))
  /\ exists h, history (check_and_mark w 0 (new_entry t m_state)) = Val [h].
Proof.
  intros Hval Hu. unfold submit. rewrite Hval.
  change (fst (?a, ?b)) with a. fold (new_entry t m_state).
  change (loadPlates (snd (upsertPlate ?e st)))
    with (sort compare_plates (upsert_list e (loadPlates st))).
  split; [|split; [|split]].
  - rewrite sort_perm, upsert_list_owned, check_and_mark_key;
      [reflexivity|apply check_and_mark_owns|exact Hu].
  - apply check_and_mark_text.
  - apply (check_and_mark_same_identity w 0 (new_entry t m_state)).
  - unfold check_and_mark.
    destruct (checkAvailability w 0 (new_entry t m_state));
      eexists; reflexivity.
Qed.

Lemma spread_field_same {A} (x : field A) : spread_field x x = x.
Proof. now destruct x. Qed.

Lemma spread_checked w k p :
  spread p (check_and_mark w k p) = check_and_mark w k p.
Proof.
  unfold check_and_mark.
  destruct (checkAvailability w k p); unfold spread, markChecked; simpl;
    now rewrite !spread_field_same.
Qed.

(** X8. The per-plate refresh button leaves the storage as it is when no
    record has its key; otherwise it books one check on the first record
    that has the key, where it stands, leaves every other record as it
    is, and saves. *)
Theorem refreshOne_books_first_match (w : World) (key : jsstring)
    (st : Storage) :
  ((forall q, q ∈ loadPlates st -> mkKey q <> key) ->
   refreshOne w key st = st)
  /\ (forall i p,
        loadPlates st !! i = Some p -> mkKey p = key ->
        (forall j q, loadPlates st !! j = Some q -> (j < i)%nat ->
                     mkKey q <> key) ->
        loadPlates (refreshOne w key st)
        = sort compare_plates
            (<[i := check_and_mark w 0 p]> (loadPlates st))).
Proof.
  unfold refreshOne. split.
  - intros Hnone.
    rewrite (proj2 (list_find_None (fun x => mkKey x = key) (loadPlates st)));
      [reflexivity|]. now apply Forall_forall.
  - intros i p Hl Hk Hfirst.
    rewrite (proj2 (list_find_Some (fun x => mkKey x = key)
                      (loadPlates st) i p)) by auto.
    change (loadPlates (snd (upsertPlate ?e st)))
      with (sort compare_plates (upsert_list e (loadPlates st))).
    unfold upsert_list.
    rewrite check_and_mark_key, Hk.
    rewrite (findIndex_first key (loadPlates st) i p Hl Hk Hfirst).
    rewrite (list_lookup_total_correct _ _ _ Hl), spread_checked.
    reflexivity.
Qed.
End ReplaceFacts.

(** ** Migration, import and export *)

(** Reduce the projections of a record that is spelled out, and nothing
    else. *)
Ltac project :=
  cbn [plateText state selectedVehicleType selectedKindOfPlate
       selectedPlateProgram selectedPlateProgramID
       selectedPlateProgramSubCategory lastStatus lastCheckedUtc history].

Section MigrateFacts.
Context `{Platform}.

Lemma str_or_again v d : str_or (Val (str_or v d)) d = str_or v d.
Proof. destruct v as [| |[|c s]]; simpl; now destruct d. Qed.

Lemma keyParts_with_defaults text p :
  keyParts (with_defaults text p)
  = toUpperCase (str_or text []) :: tail (keyParts p).
Proof.
  unfold keyParts, with_defaults. project. cbn [tail].
  now rewrite !str_or_again.
Qed.

(** X12. Writing the defaults into a record does not change its key:
    the record that the migration or the import makes of a record whose
    plate text is already normal, and the record that the import makes of
    a record without plate text, have the key of the record. *)
Theorem defaults_keep_key (p : Plate) :
  mkKey (with_defaults (plateText p) p) = mkKey p
  /\ (plateText p = Val (normalizePlateText (plateText p)) ->
      mkKey (fst (migrate_record p)) = mkKey p
      /\ mkKey (import_record p) = mkKey p)
  /\ (truthy (plateText p) = false -> mkKey (import_record p) = mkKey p).
Proof.
  assert (mkKey (with_defaults (plateText p) p) = mkKey p) as Hsame.
  { unfold mkKey. now rewrite keyParts_with_defaults. }
  split; [exact Hsame|]. split.
  - intros Hn. unfold migrate_record, import_record.
    destruct (text_differs _ _); destruct (truthy (plateText p));
      simpl; rewrite <- ?Hn; auto.
  - intros Hf. unfold import_record. now rewrite Hf.
Qed.

Lemma text_differs_false n v : text_differs n v = false <-> v = Val n.
Proof.
  destruct v as [| |s]; simpl; try (split; discriminate).
  rewrite negb_false_iff, bool_decide_eq_true. split; congruence.
Qed.

Lemma migrate_record_fst p : fst (migrate_record p) = migrated p.
Proof.
  unfold migrate_record, migrated.
  destruct (text_differs _ _) eqn:E; [reflexivity|].
  apply text_differs_false in E. simpl. now rewrite <- E.
Qed.

Lemma migrate_unchanged (l : list Plate) :
  existsb snd (migrate_record <$> l) = false
  <-> Forall (fun p => plateText p = Val (normalizePlateText (plateText p))) l.
Proof.
  induction l as [|p l IH]; simpl; [split; [constructor|reflexivity]|].
  rewrite orb_false_iff, IH, Forall_cons.
  unfold migrate_record at 1.
  destruct (text_differs _ _) eqn:E; simpl.
  - split; [intros [? _]; discriminate|].
    intros [Hp _]. apply text_differs_false in Hp. congruence.
  - apply text_differs_false in E. tauto.
Qed.

Lemma migrated_text_fixed p :
  upper_fixes_plain ->
  plateText (migrated p)
  = Val (normalizePlateText (plateText (migrated p))).
Proof.
  intros Hup. unfold migrated. simpl.
  now rewrite normalize_fixed by (exact Hup || apply normalize_normal).
Qed.

(** X9. The migration writes only when the plate text of some stored
    record is not its own normal form; a record that merely lacks its
    state or a facet is not persisted with the default. When it writes,
    it persists every record with normal plate text and with state and
    facets set. Where upper-casing leaves normal text alone, a second
    migration changes nothing. *)
Theorem migrate_writes_on_text_change (st : Storage) :
  (Forall (fun p => plateText p = Val (normalizePlateText (plateText p)))
          (loadPlates st) ->
   migrate st = st)
  /\ (~ Forall (fun p => plateText p
                         = Val (normalizePlateText (plateText p)))
               (loadPlates st) ->
      loadPlates (migrate st)
      = sort compare_plates (migrated <$> loadPlates st))
  /\ (upper_fixes_plain -> migrate (migrate st) = migrate st).
Proof.
  assert (fst <$> (migrate_record <$> loadPlates st)
          = migrated <$> loadPlates st) as Hfst.
  { rewrite <- list_fmap_compose. apply list_fmap_ext.
    intros i p _. apply migrate_record_fst. }
  split; [|split].
  - intros Hall. unfold migrate.
    now rewrite (proj2 (migrate_unchanged (loadPlates st)) Hall).
  - intros Hsome. unfold migrate.
    destruct (existsb snd _) eqn:E.
    + rewrite Hfst. reflexivity.
    + apply migrate_unchanged in E. contradiction.
  - intros Hup.
    destruct (existsb snd (migrate_record <$> loadPlates st)) eqn:E.
    2:{ assert (migrate st = st) as -> by (unfold migrate; now rewrite E).
        unfold migrate. now rewrite E. }
    assert (migrate st = snd (savePlates (migrated <$> loadPlates st)))
      as -> by (unfold migrate; now rewrite E, Hfst).
    unfold migrate.
    change (loadPlates (snd (savePlates ?l))) with (sort compare_plates l).
    rewrite (proj2 (migrate_unchanged _)); [reflexivity|].
    apply Forall_forall. intros q. rewrite sort_perm.
    intros (p & -> & _)%list_elem_of_fmap.
    now apply migrated_text_fixed.
Qed.

Lemma truthy_str_or v d : d <> [] -> truthy (Val (str_or v d)) = true.
Proof. destruct v as [| |[|c s]], d; simpl; congruence. Qed.

Lemma with_defaults_defaulted text p :
  (forall t, text = Val t -> normal_text t) ->
  defaulted (with_defaults text p).
Proof.
  intros Ht. unfold defaulted, with_defaults. project.
  rewrite !truthy_str_or by discriminate.
  split; [reflexivity|]. split; [reflexivity|]. split; [reflexivity|].
  split; [reflexivity|]. split; [eexists; reflexivity|].
  split; [reflexivity|exact Ht].
Qed.

Lemma import_record_defaulted p : defaulted (import_record p).
Proof.
  apply with_defaults_defaulted. intros t.
  destruct (plateText p) as [| |[|c s]] eqn:E; simpl; try discriminate.
  - intros [= <-]. split; [simpl; lia|constructor].
  - intros [= <-]. apply normalize_normal.
Qed.

(** X10. An import succeeds only on a file that holds an array; it then
    replaces the stored collection, whatever it was, by the records of the
    file, sorted, each with state and facets set and with plate text that,
    if it is a string, has the shape of normal text. A file with JSON that
    is not an array is refused as "Invalid JSON". *)
Theorem importFile_replaces_store (text : payload) (st : Storage) :
  (forall st',
     importFile text st = Ok st' ->
     exists arr,
       text = ArrayOf arr
       /\ loadPlates st' = sort compare_plates (import_record <$> arr)
       /\ Forall defaulted (loadPlates st'))
  /\ (text = NotArray ->
      importFile text st = Throw (Error (lit "Invalid JSON"))).
Proof.
  split.
  - intros st'. unfold importFile.
    destruct text as [| | |arr]; simpl; try discriminate.
    intros [= <-]. exists arr. split; [reflexivity|].
    split; [reflexivity|].
    change (Forall defaulted (sort compare_plates (import_record <$> arr))).
    apply Forall_forall. intros q. rewrite sort_perm.
    intros (p & -> & _)%list_elem_of_fmap. apply import_record_defaulted.
  - now intros ->.
Qed.

Lemma with_defaults_again T T' p :
  with_defaults T' (with_defaults T p) = with_defaults T' p.
Proof. unfold with_defaults. project. now rewrite !str_or_again. Qed.

Lemma import_text_settled (v : field jsstring) :
  upper_fixes_plain ->
  let T := if truthy v then Val (normalizePlateText v) else v in
  (if truthy T then Val (normalizePlateText T) else T) = T.
Proof.
  intros Hup. destruct (truthy v) eqn:E; cbv zeta.
  - destruct (normalizePlateText v) as [|c n] eqn:En; [reflexivity|].
    cbn [truthy]. rewrite <- En, normalize_fixed; [reflexivity|exact Hup|].
    apply normalize_normal.
  - now rewrite E.
Qed.

Lemma import_record_idem p :
  upper_fixes_plain -> import_record (import_record p) = import_record p.
Proof.
  intros Hup. unfold import_record at 1.
  change (plateText (import_record p))
    with (if truthy (plateText p)
          then Val (normalizePlateText (plateText p)) else plateText p).
  rewrite (import_text_settled (plateText p) Hup).
  unfold import_record. apply with_defaults_again.
Qed.

Lemma import_new_entry w t m :
  upper_fixes_plain -> normal_text t ->
  import_record (check_and_mark w 0 (new_entry t m))
  = check_and_mark w 0 (new_entry t m).
Proof.
  intros Hup Ht.
  assert ((if truthy (Val t) then Val (normalizePlateText (Val t))
           else Val t) = Val t) as HT.
  { destruct t as [|c t]; [reflexivity|]. cbn [truthy].
    now rewrite normalize_fixed. }
  unfold check_and_mark.
  destruct (checkAvailability w 0 (new_entry t m));
    unfold import_record, markChecked, new_entry; project; rewrite HT;
    unfold with_defaults; project; rewrite str_or_again; reflexivity.
Qed.

Lemma fmap_fixed {A} (f : A -> A) (l : list A) :
  Forall (fun x => f x = x) l -> f <$> l = l.
Proof.
  induction 1 as [|x l Hx _ IH]; [reflexivity|].
  rewrite fmap_cons. congruence.
Qed.

(** X11. Export and import go round: where upper-casing leaves normal
    text alone and [localeCompare] is total, importing the exported text
    of a store restores that store, if its collection is sorted and
    consists of records that an import leaves as they are. The stores
    that an import wrote are of this kind, and so are the records that
    the add form stores. *)
Theorem export_import_roundtrip :
  upper_fixes_plain -> compare_total ->
  (forall arr st2,
     Forall (fun p => import_record p = p) arr -> sorted_by_text arr ->
     importFile (exportBlob (Some (ArrayOf arr))) st2
     = Ok (Some (ArrayOf arr)))
  /\ (forall text st st1 st2,
        importFile text st = Ok st1 ->
        importFile (exportBlob st1) st2 = Ok st1)
  /\ (forall w t m,
        normal_text t ->
        import_record (check_and_mark w 0 (new_entry t m))
        = check_and_mark w 0 (new_entry t m)).
Proof.
  intros Hup Htot.
  assert (forall arr st2,
            Forall (fun p => import_record p = p) arr ->
            sorted_by_text arr ->
            importFile (exportBlob (Some (ArrayOf arr))) st2
            = Ok (Some (ArrayOf arr))) as Hgen.
  { intros arr st2 Hfix Hs. unfold importFile, savePlates. simpl.
    rewrite fmap_fixed by exact Hfix. now rewrite sort_sorted_id. }
  split; [exact Hgen|]. split.
  - intros text st st1 st2. unfold importFile at 1.
    destruct text as [| | |arr]; simpl; try discriminate.
    intros [= <-]. apply Hgen.
    + apply Forall_forall. intros q. rewrite sort_perm.
      intros (p & -> & _)%list_elem_of_fmap. now apply import_record_idem.
    + apply sort_sorted. intros a b. apply Htot.
  - intros w t m Ht. now apply import_new_entry.
Qed.
End MigrateFacts.

(** ** Refresh runs in general *)

Section RunFacts.
Context `{Platform} (w : World).

Lemma grown_refl p : grown p p.
Proof. split; [repeat split|reflexivity]. Qed.

Lemma grown_check k p q : grown p q -> grown p (check_and_mark w k q).
Proof.
  intros [(H1 & H2 & H3 & H4 & H5 & H6 & H7) Hh].
  destruct (check_and_mark_same_identity w k q)
    as (G1 & G2 & G3 & G4 & G5 & G6 & G7).
  destruct (check_and_mark_one_entry w k q) as (e & He & _).
  split; [repeat split; congruence|].
  unfold history_of in *. rewrite He. simpl. now apply prefix_app_r.
Qed.

Lemma grown_insert l h id k :
  Forall2 grown l h ->
  Forall2 grown l (<[id := check_and_mark w k (h !!! id)]> h).
Proof.
  intros Hg. destruct (decide (id < length h)%nat) as [Hlt|Hge].
  - destruct (lookup_lt_is_Some_2 h id Hlt) as [q Hq].
    destruct (Forall2_lookup_r _ _ _ _ _ Hg Hq) as (p & Hp & Hpq).
    rewrite <- (list_insert_id l id p Hp).
    apply Forall2_insert; [exact Hg|].
    rewrite (list_lookup_total_correct _ _ _ Hq). now apply grown_check.
  - rewrite list_insert_ge by lia. exact Hg.
Qed.

Lemma grown_text p q : grown p q -> sort_text q = sort_text p.
Proof. intros [(Ht & _) _]. unfold sort_text. now rewrite Ht. Qed.

Lemma grown_sorted l h :
  Forall2 grown l h -> sorted_by_text l -> sorted_by_text h.
Proof.
  intros Hg. induction Hg as [|p q l h Hpq Hg IH]; [constructor|].
  intros Hs. inversion Hs as [|? ? Hs' Hhd]; subst.
  constructor; [now apply IH|].
  destruct Hg as [|p' q' l h Hpq' Hg]; constructor.
  inversion Hhd; subst. unfold plates_le, compare_plates in *.
  fold (sort_text p) (sort_text p') (sort_text q) (sort_text q') in *.
  now rewrite (grown_text _ _ Hpq), (grown_text _ _ Hpq').
Qed.

Lemma grown_keys l h : Forall2 grown l h -> mkKey <$> h = mkKey <$> l.
Proof.
  induction 1 as [|p q l h [Hpq _] _ IH]; [reflexivity|].
  rewrite !fmap_cons, IH. f_equal. now apply mkKey_same_identity.
Qed.

Lemma deref_perm (h : list Plate) (ids : list nat) :
  ids ≡ₚ seq 0 (length h) -> (h !!!.) <$> ids ≡ₚ h.
Proof. intros ->. now rewrite fmap_lookup_total_seq. Qed.

Lemma run_inv_start st :
  run_inv st (loadPlates st)
    {| heap := loadPlates st; all := seq 0 (length (loadPlates st));
       stored := st; writes := []; shown := [] |}.
Proof.
  unfold run_inv. simpl. split.
  - apply Forall_Forall2_diag, Forall_forall. intros p _. apply grown_refl.
  - repeat split; auto.
Qed.

Lemma run_inv_shown st l txt r : run_inv st l r -> run_inv st l (setRunStatus txt r).
Proof. intros Hr. exact Hr. Qed.

Lemma run_inv_body st l t i id r :
  run_inv st l r -> run_inv st l (refresh_body w t i id r).
Proof.
  intros (Hg & Hperm & Hsame & Hw & _).
  pose proof (grown_insert l (heap r) id i Hg) as Hg'.
  pose proof (Forall2_length _ _ _ Hg') as Hlen.
  set (h' := <[id := check_and_mark w i (heap r !!! id)]> (heap r)) in *.
  set (all' := sort (fun a b => compare_plates (h' !!! a) (h' !!! b))
                    (all r)).
  assert (all' ≡ₚ seq 0 (length l)) as Hperm'.
  { unfold all'. now rewrite sort_perm. }
  assert (sorted_by_text l -> all' = seq 0 (length l)) as Hsame'.
  { intros Hs. unfold all'. rewrite (Hsame Hs). apply sort_sorted_id.
    apply (Sorted_fmap_inv (h' !!!.) plates_le).
    rewrite Hlen, fmap_lookup_total_seq. now apply (grown_sorted l). }
  unfold run_inv, refresh_body, setRunStatus, save_all, mark_target.
  cbn [heap all stored writes shown]. fold h'. fold all'.
  split; [exact Hg'|]. split; [exact Hperm'|]. split; [exact Hsame'|].
  split; [|right; split; [reflexivity|apply last_snoc]].
  apply Forall_app. split; [exact Hw|]. repeat constructor.
  exists h'. split; [exact Hg'|]. split.
  - apply deref_perm. now rewrite <- Hlen.
  - intros Hs. rewrite (Hsame' Hs), Hlen. apply fmap_lookup_total_seq.
Qed.

Lemma run_inv_loop st l t : forall fuel i r r',
  run_inv st l r -> refresh_loop w fuel t i r = Some r' -> run_inv st l r'.
Proof.
  induction fuel as [|fuel IH]; intros i r r' Hr; simpl;
    destruct (targets_array t r !! i) as [id|];
    intros Hrun; try discriminate; try (injection Hrun as <-; exact Hr).
  eapply IH; [|exact Hrun]. now apply run_inv_body.
Qed.

Lemma run_inv_refreshDue btn force st r :
  refreshDue w btn force st = Some r -> run_inv st (loadPlates st) r.
Proof.
  pose proof (run_inv_start st) as H0.
  unfold refreshDue. destruct btn; simpl; [|now intros [= <-]].
  match goal with |- context [Nat.eqb ?n 0] => destruct (Nat.eqb n 0) end;
    [now intros [= <-]|].
  match goal with |- context [refresh_loop w ?n ?t 0 ?r0] =>
    destruct (refresh_loop w n t 0 r0) as [r1|] eqn:E end;
    simpl; [|discriminate].
  intros [= <-]. apply run_inv_shown.
  eapply run_inv_loop; [|exact E]. exact H0.
Qed.

(** X13. Whatever is stored and whether or not the run is forced, every
    collection that a refresh run writes is a rearrangement of the stored
    records as the checks left them: no record is lost or added, each
    keeps its seven identity properties and so its key, and each history
    is the stored history with entries added at the end. On a sorted
    store the written collections list the records in stored order. *)
Theorem refresh_run_keeps_records btn force st r :
  refreshDue w btn force st = Some r ->
  Forall (fun W =>
            (exists h, Forall2 grown (loadPlates st) h /\ W ≡ₚ h
                       /\ (sorted_by_text (loadPlates st) -> W = h))
            /\ mkKey <$> W ≡ₚ mkKey <$> loadPlates st)
         (writes r)
  /\ ((writes r = [] /\ stored r = st)
      \/ last (writes r) = Some (loadPlates (stored r))).
Proof.
  intros Hrun. pose proof (run_inv_refreshDue _ _ _ _ Hrun)
    as (Hg & Hperm & Hsame & Hw & Hst).
  split.
  - eapply Forall_impl; [exact Hw|]. intros W (h & Hh & HW & Hs).
    split; [exists h; auto|]. now rewrite HW, (grown_keys _ _ Hh).
  - destruct Hst as [Hnone|[Hst Hlast]]; [now left|right].
    now rewrite Hlast, Hst.
Qed.
Lemma refreshDue_unfold force st r :
  refreshDue w true force st = Some r ->
  let t := targets_of w force (loadPlates st) in
  let n := length (targets_array t (run_start st)) in
  (n = 0%nat /\ r = setRunStatus UpToDate (run_start st))
  \/ (n <> 0%nat
      /\ exists r1,
           refresh_loop w n t 0 (setRunStatus (Progress 0 n) (run_start st))
           = Some r1
           /\ r = setRunStatus Done r1).
Proof.
  unfold refreshDue. cbn [negb]. fold (run_start st).
  change (if force then SameArray else FilteredArray _)
    with (targets_of w force (loadPlates st)).
  intros Hrun. set (t := targets_of w force (loadPlates st)) in *.
  set (n := length (targets_array t (run_start st))) in *.
  destruct (Nat.eqb_spec n 0) as [Hn|Hn].
  - left. injection Hrun as <-. auto.
  - right. split; [exact Hn|].
    destruct (refresh_loop w n t 0 _) as [r1|]; [|discriminate].
    injection Hrun as <-. eauto.
Qed.

Lemma loop_progress t : forall m i r,
  length (targets_array t r) = (i + m)%nat ->
  exists r',
    refresh_loop w m t i r = Some r'
    /\ shown r'
       = shown r ++ ((fun j => Progress (S j) (i + m)) <$> seq i m)
    /\ length (writes r') = (length (writes r) + m)%nat.
Proof.
  induction m as [|m IH]; intros i r Hlen.
  - exists r. simpl. rewrite lookup_ge_None_2 by lia.
    rewrite app_nil_r. auto.
  - simpl. destruct (lookup_lt_is_Some_2 (targets_array t r) i) as [id Hid];
      [lia|]. rewrite Hid.
    assert (length (targets_array t (refresh_body w t i id r))
            = (S i + m)%nat) as Hlen'.
    { rewrite refresh_body_targets. lia. }
    destruct (IH (S i) _ Hlen') as (r' & Hrun & Hsh & Hw).
    exists r'. split; [exact Hrun|]. split.
    + rewrite Hsh. unfold refresh_body at 1. cbn [setRunStatus shown].
      change (targets_array t (save_all (mark_target w i id r)))
        with (targets_array t (refresh_body w t i id r)).
      rewrite Hlen', <- app_assoc.
      replace (S i + m)%nat with (i + S m)%nat by lia. reflexivity.
    + rewrite Hw. unfold refresh_body. cbn [setRunStatus writes save_all].
      rewrite length_app. simpl. lia.
Qed.

Lemma refresh_run_length force st r :
  refreshDue w true force st = Some r ->
  length (writes r)
  = length (targets_array (targets_of w force (loadPlates st))
                          (run_start st)).
Proof.
  intros Hrun.
  destruct (refreshDue_unfold _ _ _ Hrun) as [[Hn ->]|(Hn & r1 & Hloop & ->)].
  - now rewrite Hn.
  - set (t := targets_of w force (loadPlates st)) in *.
    set (n := length (targets_array t (run_start st))) in *.
    destruct (loop_progress t n 0 (setRunStatus (Progress 0 n) (run_start st)))
      as (r' & Hrun' & _ & Hw); [reflexivity|].
    rewrite Hloop in Hrun'. injection Hrun' as <-. exact Hw.
Qed.

(** X14. A run ends on every input, and for [n] targets (all stored
    records with [force], the due ones without) it writes the collection
    [n] times and shows 0 of [n], then 1 of [n] up to [n] of [n], then
    Done; for no target it writes nothing and shows that all is up to
    date. *)
Theorem refresh_run_progress force st :
  exists r,
    refreshDue w true force st = Some r
    /\ length (writes r)
       = length (targets_array (targets_of w force (loadPlates st))
                               (run_start st))
    /\ shown r
       = progress_of
           (length (targets_array (targets_of w force (loadPlates st))
                                  (run_start st))).
Proof.
  destruct (refreshDue_completes w true force st) as [r Hrun].
  exists r. split; [exact Hrun|].
  destruct (refreshDue_unfold _ _ _ Hrun) as [[Hn ->]|(Hn & r1 & Hloop & ->)].
  - rewrite Hn. auto.
  - set (t := targets_of w force (loadPlates st)) in *.
    set (n := length (targets_array t (run_start st))) in *.
    destruct (loop_progress t n 0 (setRunStatus (Progress 0 n) (run_start st)))
      as (r' & Hrun' & Hsh & Hw); [reflexivity|].
    rewrite Hloop in Hrun'. injection Hrun' as <-.
    cbn [setRunStatus writes shown]. rewrite Hw, Hsh. simpl.
    destruct n; [contradiction|]. split; reflexivity.
Qed.
Lemma booked_step l ids k id h :
  NoDup ids -> (forall i, i ∈ ids -> (i < length l)%nat) ->
  ids !! k = Some id -> booked w l ids k h ->
  booked w l ids (S k) (<[id := check_and_mark w k (h !!! id)]> h).
Proof.
  intros Hnd Hbound Hid (Hlen & Hdone & Hrest).
  assert (id < length l)%nat as Hlt
    by (eapply Hbound, list_elem_of_lookup_2; exact Hid).
  assert (h !!! id = l !!! id) as Hsame.
  { apply list_lookup_total_correct. rewrite Hrest.
    - now apply list_lookup_lookup_total_lt.
    - intros j Hj Hj'. pose proof (NoDup_lookup _ _ _ _ Hnd Hj' Hid). lia. }
  split; [now rewrite length_insert|]. split.
  - intros j id' Hj Hid'. destruct (decide (j = k)) as [->|Hne].
    + rewrite Hid in Hid'. injection Hid' as <-.
      rewrite list_lookup_insert_eq by lia. now rewrite Hsame.
    + rewrite list_lookup_insert_ne.
      * apply Hdone; [lia|exact Hid'].
      * intros ->. pose proof (NoDup_lookup _ _ _ _ Hnd Hid Hid'). lia.
  - intros i Hi. rewrite list_lookup_insert_ne.
    + apply Hrest. intros j Hj. apply Hi. lia.
    + intros ->. apply (Hi k); [lia|exact Hid].
Qed.

Lemma due_loop l ids :
  NoDup ids -> (forall i, i ∈ ids -> (i < length l)%nat) ->
  forall m k r r',
    (k + m = length ids)%nat -> booked w l ids k (heap r) ->
    refresh_loop w m (FilteredArray ids) k r = Some r' ->
    booked w l ids (length ids) (heap r').
Proof.
  intros Hnd Hbound. induction m as [|m IH]; intros k r r' Hk Hb; simpl.
  - rewrite lookup_ge_None_2 by lia. intros [= <-].
    now replace (length ids) with k by lia.
  - destruct (lookup_lt_is_Some_2 ids k) as [id Hid]; [lia|].
    rewrite Hid. apply IH; [lia|].
    now apply booked_step.
Qed.

Lemma due_ids_NoDup l : NoDup (due_ids w l).
Proof. apply NoDup_filter, NoDup_seq. Qed.

Lemma due_ids_elem l i :
  i ∈ due_ids w l
  <-> isDue (start w) (l !!! i) = true /\ (i < length l)%nat.
Proof.
  unfold due_ids. rewrite list_elem_of_filter, elem_of_seq.
  split; intros [? ?]; split; auto; lia.
Qed.

Lemma run_inv_stored st l r :
  run_inv st l r -> writes r <> [] ->
  loadPlates (stored r) ≡ₚ heap r
  /\ (sorted_by_text l -> loadPlates (stored r) = heap r).
Proof.
  intros (Hg & Hperm & Hsame & _ & [[Hnil _]|[Hst _]]) Hw; [contradiction|].
  pose proof (Forall2_length _ _ _ Hg) as Hlen.
  rewrite Hst. change (loadPlates (Some (ArrayOf ?x))) with x. split.
  - apply deref_perm. now rewrite <- Hlen.
  - intros Hs. rewrite (Hsame Hs), Hlen. apply fmap_lookup_total_seq.
Qed.

Lemma due_run_heap st r :
  refreshDue w true false st = Some r ->
  booked w (loadPlates st) (due_ids w (loadPlates st))
         (length (due_ids w (loadPlates st))) (heap r).
Proof.
  intros Hrun. set (l := loadPlates st). set (ids := due_ids w l).
  destruct (refreshDue_unfold _ _ _ Hrun)
    as [[Hn ->]|(Hn & r1 & Hloop & ->)].
  - change (length ids = 0%nat) in Hn. rewrite Hn.
    split; [reflexivity|]. split; [intros; lia|reflexivity].
  - change (refresh_loop w (length ids) (FilteredArray ids) 0
              (setRunStatus (Progress 0 (length ids)) (run_start st))
            = Some r1) in Hloop.
    cbn [setRunStatus heap].
    refine (due_loop l ids (due_ids_NoDup l) _ (length ids) 0 _ r1
              eq_refl _ Hloop).
    + intros i Hi. now apply due_ids_elem in Hi.
    + split; [reflexivity|]. split; [intros; lia|reflexivity].
Qed.

Lemma due_run_stored st r :
  refreshDue w true false st = Some r ->
  (due_ids w (loadPlates st) <> [] ->
   loadPlates (stored r) ≡ₚ heap r
   /\ (sorted_by_text (loadPlates st) -> loadPlates (stored r) = heap r))
  /\ (due_ids w (loadPlates st) = [] -> stored r = st).
Proof.
  intros Hrun.
  pose proof (run_inv_refreshDue _ _ _ _ Hrun) as Hinv.
  pose proof (refresh_run_length _ _ _ Hrun) as Hwrites.
  set (l := loadPlates st) in *. set (ids := due_ids w l) in *.
  split.
  - intros Hne. apply (run_inv_stored st l r Hinv).
    intros Hnil. rewrite Hnil in Hwrites. simpl in Hwrites.
    change (0%nat = length ids) in Hwrites. now destruct ids.
  - intros Hnil.
    destruct (refreshDue_unfold _ _ _ Hrun)
      as [[Hn ->]|(Hn & _)]; [reflexivity|].
    change (length ids <> 0%nat) in Hn. now rewrite Hnil in Hn.
Qed.

(** X15. A run without [force] checks the records that are due when it
    starts, each once, in stored order, whatever the order of the stored
    collection: the [j]-th due record gets the [j]-th check of the run,
    and a record that is not due is left as it is. If some record is due,
    the collection persisted at the end is a rearrangement of these
    records (the very list, if the stored collection was sorted);
    otherwise the storage is left as it is. *)
Theorem due_refresh_checks_due_records st :
  exists r,
    refreshDue w true false st = Some r
    /\ (forall j id,
          due_ids w (loadPlates st) !! j = Some id ->
          heap r !! id
          = Some (check_and_mark w j (loadPlates st !!! id)))
    /\ (forall i, i ∉ due_ids w (loadPlates st) ->
                  heap r !! i = loadPlates st !! i)
    /\ (due_ids w (loadPlates st) <> [] ->
        loadPlates (stored r) ≡ₚ heap r
        /\ (sorted_by_text (loadPlates st) ->
            loadPlates (stored r) = heap r))
    /\ (due_ids w (loadPlates st) = [] -> stored r = st).
Proof.
  destruct (refreshDue_completes w true false st) as [r Hrun].
  exists r. split; [exact Hrun|].
  destruct (due_run_heap st r Hrun) as (_ & Hdone & Hrest).
  destruct (due_run_stored st r Hrun) as [Hsome Hnone].
  split; [|split; [|split]].
  - intros j id Hid. apply Hdone; [|exact Hid].
    eapply lookup_lt_Some; exact Hid.
  - intros i Hi. apply Hrest. intros j _ Hj. apply Hi.
    eapply list_elem_of_lookup_2; exact Hj.
  - exact Hsome.
  - exact Hnone.
Qed.

Lemma isDue_same_month now now' p :
  getMonth now = getMonth now' -> getFullYear now = getFullYear now' ->
  isDue now p = isDue now' p.
Proof. intros Hm Hy. unfold isDue. now rewrite Hm, Hy. Qed.

Lemma isDue_after_check k p now :
  toISOString (clock w k) <> [] ->
  Date_parse (toISOString (clock w k)) = Some (clock w k) ->
  isDue now (check_and_mark w k p)
  = negb (getMonth (clock w k) =? getMonth now)
    || negb (getFullYear (clock w k) =? getFullYear now).
Proof.
  intros Hne Hp. unfold check_and_mark.
  destruct (checkAvailability w k p); unfold isDue, markChecked; project;
    (destruct (toISOString (clock w k)) as [|c s] eqn:E; [contradiction|]);
    now rewrite Hp.
Qed.

End RunFacts.

(** ** One run after another *)

Section SecondRun.
Context `{Platform}.

Lemma idle_run w' st :
  Forall (fun p => isDue (start w') p = false) (loadPlates st) ->
  refreshDue w' true false st
  = Some (setRunStatus UpToDate (run_start st)).
Proof.
  intros Hall.
  assert (due_ids w' (loadPlates st) = []) as Hnil.
  { apply elem_of_nil_inv. intros i [Hd Hi]%due_ids_elem.
    rewrite Forall_lookup in Hall.
    rewrite (Hall i (loadPlates st !!! i)) in Hd; [discriminate|].
    now apply list_lookup_lookup_total_lt. }
  unfold refreshDue. cbn [negb]. fold (run_start st).
  change (filter _ (all (run_start st))) with (due_ids w' (loadPlates st)).
  now rewrite Hnil.
Qed.

(** X16. Two runs without [force] in one calendar month: if the checks of
    the first run happen in the month in which the second run starts,
    and the first run started in that month too, the second run finds
    nothing due; it shows that all is up to date and leaves the storage
    as the first run left it. (The times of the checks are assumed to
    survive [toISOString] and the date parser.) *)
Theorem second_run_same_month_is_idle (w w' : World) (st : Storage)
    (r : Run) :
  refreshDue w true false st = Some r ->
  getMonth (start w) = getMonth (start w') ->
  getFullYear (start w) = getFullYear (start w') ->
  checks_in_month_of w (length (due_ids w (loadPlates st))) (start w') ->
  exists r',
    refreshDue w' true false (stored r) = Some r'
    /\ shown r' = [UpToDate]
    /\ writes r' = []
    /\ stored r' = stored r.
Proof.
  intros Hrun Hm Hy Hclock.
  destruct (due_run_heap w st r Hrun) as (Hlen & Hdone & Hrest).
  destruct (due_run_stored w st r Hrun) as [Hsome Hnone].
  set (l := loadPlates st) in *. set (ids := due_ids w l) in *.
  assert (Forall (fun p => isDue (start w') p = false) (heap r)) as Hheap.
  { apply Forall_lookup. intros i q Hq.
    assert (i < length l)%nat as Hi
      by (rewrite <- Hlen; eapply lookup_lt_Some; exact Hq).
    destruct (decide (i ∈ ids)) as [Hin|Hout].
    - apply list_elem_of_lookup_1 in Hin as [j Hj].
      assert (j < length ids)%nat as Hjl
        by (eapply lookup_lt_Some; exact Hj).
      rewrite (Hdone j i Hjl Hj) in Hq. injection Hq as <-.
      destruct (Hclock j Hjl) as (Hne & Hp & Hcm & Hcy).
      rewrite isDue_after_check by assumption.
      now rewrite Hcm, Hcy, !Z.eqb_refl.
    - rewrite Hrest in Hq.
      2:{ intros j _ Hj. apply Hout.
          eapply list_elem_of_lookup_2; exact Hj. }
      rewrite <- (isDue_same_month (start w) (start w') q Hm Hy).
      destruct (isDue (start w) q) eqn:E; [|reflexivity].
      exfalso. apply Hout. apply due_ids_elem.
      now rewrite (list_lookup_total_correct _ _ _ Hq). }
  assert (Forall (fun p => isDue (start w') p = false)
                 (loadPlates (stored r))) as Hall.
  { destruct ids as [|id ids'] eqn:E.
    - rewrite (Hnone eq_refl). fold l.
      assert (heap r = l) as <-; [|exact Hheap].
      apply list_eq. intros i. apply Hrest. intros j _. now destruct j.
    - destruct Hsome as [Hperm _]; [discriminate|]. now rewrite Hperm. }
  exists (setRunStatus UpToDate (run_start (stored r))).
  split; [now apply idle_run|]. repeat split.
Qed.
End SecondRun.


(** ** Checks and the proxies *)

Section CheckFacts.
Context `{Platform}.

(** X17. The answer to a check depends on the record only through its
    plate text and through whether its state is CA: the facets and the
    check fields of a record never reach a proxy. A check that succeeds
    returns Available or Unavailable, and after any check [lastStatus]
    is Available, Unavailable or Error, so that the record is no longer
    rendered as unknown. *)
Theorem check_depends_on_text_and_state (w : World) (k : nat) (p : Plate) :
  (forall q,
     plateText q = plateText p ->
     (str_or (state q) (lit "ID") = lit "CA"
      <-> str_or (state p) (lit "ID") = lit "CA") ->
     checkAvailability w k q = checkAvailability w k p)
  /\ (forall s,
        checkAvailability w k p = Ok s ->
        s = lit "Available" \/ s = lit "Unavailable")
  /\ (lastStatus (check_and_mark w k p) = Val (lit "Available")
      \/ lastStatus (check_and_mark w k p) = Val (lit "Unavailable")
      \/ lastStatus (check_and_mark w k p) = Val (lit "Error"))
  /\ rendered_class (check_and_mark w k p) <> lit "unknown".
Proof.
  assert (forall s, checkAvailability w k p = Ok s ->
                    s = lit "Available" \/ s = lit "Unavailable") as Hok.
  { intros s. unfold checkAvailability.
    destruct (bool_decide _);
      [destruct (postValidateCA w k _) as [[|]|]
      |destruct (postValidateID w k _) as [[|]|]];
      intros [= <-]; auto. }
  assert (lastStatus (check_and_mark w k p) = Val (lit "Available")
          \/ lastStatus (check_and_mark w k p) = Val (lit "Unavailable")
          \/ lastStatus (check_and_mark w k p) = Val (lit "Error")) as Hst.
  { unfold check_and_mark.
    destruct (checkAvailability w k p) as [s|e] eqn:E; simpl; [|auto].
    destruct (Hok s eq_refl) as [-> | ->]; auto. }
  split; [|split; [exact Hok|split; [exact Hst|]]].
  - intros q Ht Hs. unfold checkAvailability, basePayloadID.
    rewrite Ht. now rewrite (bool_decide_ext _ _ Hs).
  - unfold rendered_class.
    destruct Hst as [-> | [-> | ->]]; vm_compute; discriminate.
Qed.

Lemma error_text_nonempty e :
  name e <> [] \/ message e <> [] -> error_text e <> [].
Proof.
  unfold error_text, String_of_error.
  destruct (message e) as [|c m], (name e) as [|d n]; simpl;
    intros [?|?]; congruence.
Qed.

Lemma decode_response_Ok a b res av :
  decode_response a b res = Ok av
  <-> ok res = true /\ exists err, response_body res = JSONData err av.
Proof.
  unfold decode_response.
  destruct (response_body res) as [text| |err av'], (ok res); simpl;
    split; try discriminate;
    try (intros [? [err' ?]]; discriminate).
  - intros [= <-]. eauto.
  - intros [_ [err' [= <- <-]]]. reflexivity.
Qed.

Lemma decode_response_Throw a b res e :
  decode_response a b res = Throw e -> name e <> [].
Proof.
  unfold decode_response.
  destruct (response_body res) as [text| |err av'], (ok res); simpl;
    intros [= <-]; discriminate.
Qed.

Lemma checkAvailability_on net start_time time k p :
  checkAvailability (world_on net start_time time) k p
  = match fetch_for net k p with
    | Throw e => Throw e
    | Ok res =>
        match decode_response
                (if bool_decide (str_or (state p) (lit "ID") = lit "CA")
                 then lit "CA proxy non-JSON (" else lit "Non-JSON response (")
                (if bool_decide (str_or (state p) (lit "ID") = lit "CA")
                 then lit "CA proxy HTTP " else lit "HTTP ")
                res with
        | Ok a => Ok (status_of a)
        | Throw e => Throw e
        end
    end.
Proof.
  unfold checkAvailability, fetch_for, world_on. simpl.
  destruct (bool_decide _).
  - change (postValidateCA_on net k (plateText p))
      with (match fetchCA net k (plateText p) with
            | Throw e => Throw e
            | Ok res => decode_response (lit "CA proxy non-JSON (")
                                        (lit "CA proxy HTTP ") res
            end).
    now destruct (fetchCA net k (plateText p)).
  - unfold postValidateID_on.
    now destruct (fetchID net k (basePayloadID p)).
Qed.

(** X18. On a page that talks to its proxies through [fetch], a check
    yields a status exactly when the request is answered with a success
    status and a JSON body other than null, and the status then follows
    the truthiness of [Available]; nothing else is turned into a status.
    Every other outcome is booked as an entry with status Error and a
    note that is not empty (given that an error with which [fetch] itself
    fails has a name or a message). *)
Theorem proxy_failures_are_noted (net : Network) (start_time : Z)
    (time : nat -> Z) (k : nat) (p : Plate) :
  (forall s,
     checkAvailability (world_on net start_time time) k p = Ok s
     <-> exists res err av,
           fetch_for net k p = Ok res /\ ok res = true
           /\ response_body res = JSONData err av /\ s = status_of av)
  /\ (forall e,
        checkAvailability (world_on net start_time time) k p = Throw e ->
        (forall e', fetch_for net k p = Throw e' ->
                    name e' <> [] \/ message e' <> []) ->
        exists n,
          n <> []
          /\ history (check_and_mark (world_on net start_time time) k p)
             = Val (history_of p
                    ++ [{| status := lit "Error";
                           checkedUtc := toISOString (time k);
                           note := Some n |}])).
Proof.
  split.
  - intros s. rewrite checkAvailability_on.
    destruct (fetch_for net k p) as [res|e'].
    + destruct (decode_response _ _ res) as [av|e] eqn:E.
      * apply decode_response_Ok in E as (Hok & err & Hb). split.
        -- intros [= <-]. exists res, err, av. auto.
        -- intros (res' & err' & av' & [= <-] & _ & Hb' & ->).
           rewrite Hb in Hb'. now injection Hb' as _ <-.
      * split; [discriminate|].
        intros (res' & err' & av' & [= <-] & Hok & Hb & _).
        assert (decode_response
                  (if bool_decide (str_or (state p) (lit "ID") = lit "CA")
                   then lit "CA proxy non-JSON ("
                   else lit "Non-JSON response (")
                  (if bool_decide (str_or (state p) (lit "ID") = lit "CA")
                   then lit "CA proxy HTTP " else lit "HTTP ")
                  res = Ok av') as E'
          by (apply decode_response_Ok; eauto).
        rewrite E in E'. discriminate.
    + split; [discriminate|]. intros (res & ? & ? & [=] & _).
  - intros e He Hfetch.
    assert (error_text e <> []) as Hne.
    { apply error_text_nonempty. rewrite checkAvailability_on in He.
      destruct (fetch_for net k p) as [res|e'] eqn:F.
      - destruct (decode_response _ _ res) eqn:E; [discriminate|].
        injection He as <-. left. eapply decode_response_Throw; exact E.
      - injection He as <-. now apply Hfetch. }
    exists (error_text e). split; [exact Hne|].
    unfold check_and_mark. rewrite He. unfold markChecked, check_entry.
    project. cbn [clock world_on].
    destruct (error_text e); [contradiction|reflexivity].
Qed.
End CheckFacts.

(** ** What the board shows *)

Section RenderFacts.
Context `{Platform}.

Lemma whole_units (e : Z) :
  e / 1000 / 60 = e / 60000
  /\ e / 1000 / 60 / 60 = e / 3600000
  /\ e / 1000 / 60 / 60 / 24 = e / 86400000.
Proof. rewrite !Z.div_div by lia. repeat split. Qed.

(** X19. For a time of last check that parses, [relTime] shows the
    time since then in whole units, rounded down: "Just now" below five
    seconds (also for a time in the future), seconds below a minute,
    minutes below an hour, hours below a day, and days from then on. So
    it never shows 60 seconds, 60 minutes or 24 hours. A time that does
    not parse is shown as "NaNd ago". *)
Theorem relTime_whole_units (now : Z) (s : jsstring) :
  s <> [] ->
  (Date_parse s = None -> relTime now (Val s) = lit "NaNd ago")
  /\ (forall then_,
        Date_parse s = Some then_ ->
        (now - then_ < 5000 -> relTime now (Val s) = lit "Just now")
        /\ (5000 <= now - then_ < 60000 ->
            relTime now (Val s)
            = decimal ((now - then_) / 1000) ++ lit "s ago"
            /\ 5 <= (now - then_) / 1000 < 60)
        /\ (60000 <= now - then_ < 3600000 ->
            relTime now (Val s)
            = decimal ((now - then_) / 60000) ++ lit "m ago"
            /\ 1 <= (now - then_) / 60000 < 60)
        /\ (3600000 <= now - then_ < 86400000 ->
            relTime now (Val s)
            = decimal ((now - then_) / 3600000) ++ lit "h ago"
            /\ 1 <= (now - then_) / 3600000 < 24)
        /\ (86400000 <= now - then_ ->
            relTime now (Val s)
            = decimal ((now - then_) / 86400000) ++ lit "d ago"
            /\ 1 <= (now - then_) / 86400000)).
Proof.
  intros Hne. destruct s as [|c s]; [contradiction|]. unfold relTime.
  split; [now intros ->|].
  intros then_ ->. cbv zeta.
  destruct (whole_units (now - then_)) as (Hm & Hh & Hd).
  rewrite Hd, Hh, Hm. set (e := now - then_).
  assert (e / 1000 < 5 <-> e < 5000) as H5
    by (split; intros; Z.div_mod_to_equations; lia).
  assert (e / 1000 < 60 <-> e < 60000) as H60
    by (split; intros; Z.div_mod_to_equations; lia).
  assert (e / 60000 < 60 <-> e < 3600000) as Hmin
    by (split; intros; Z.div_mod_to_equations; lia).
  assert (e / 3600000 < 24 <-> e < 86400000) as Hhour
    by (split; intros; Z.div_mod_to_equations; lia).
  repeat split;
    repeat match goal with
      | |- context [?a <? ?b] => destruct (Z.ltb_spec a b)
      end;
    try reflexivity; try (Z.div_mod_to_equations; lia).
Qed.

Lemma latest_from (rows : list Plate) : forall (a : option Plate) (ta : Z),
  check_time a = Some ta ->
  exists tr,
    check_time (foldl newer a rows) = Some tr
    /\ ta <= tr
    /\ (forall q t', q ∈ rows -> check_time (Some q) = Some t' -> t' <= tr)
    /\ (foldl newer a rows = a
        \/ exists p, foldl newer a rows = Some p /\ p ∈ rows /\ ta < tr).
Proof.
  induction rows as [|b rows IH]; intros a ta Ha.
  - exists ta. cbn [foldl]. split; [exact Ha|]. split; [lia|].
    split; [|now left]. intros q t' Hq. now apply elem_of_nil in Hq.
  - cbn [foldl]. unfold newer at 2 4 6. rewrite Ha.
    destruct (check_time (Some b)) as [tb|] eqn:Hb; cbn [later].
    + destruct (Z.ltb_spec ta tb) as [Hlt|Hge].
      * destruct (IH (Some b) tb Hb) as (tr & Hr & Hle & Hall & Hwho).
        exists tr. split; [exact Hr|]. split; [lia|]. split.
        -- intros q t' [->|Hq]%elem_of_cons Hq'.
           ++ rewrite Hb in Hq'. injection Hq' as <-. exact Hle.
           ++ now apply (Hall q).
        -- right. destruct Hwho as [->|(p & -> & Hp & Hlt')].
           ++ exists b. split; [reflexivity|]. split; [left|lia].
           ++ exists p. split; [reflexivity|]. split; [now right|lia].
      * destruct (IH a ta Ha) as (tr & Hr & Hle & Hall & Hwho).
        exists tr. split; [exact Hr|]. split; [exact Hle|]. split.
        -- intros q t' [->|Hq]%elem_of_cons Hq'.
           ++ rewrite Hb in Hq'. injection Hq' as <-. lia.
           ++ now apply (Hall q).
        -- destruct Hwho as [->|(p & -> & Hp & Hlt')]; [now left|].
           right. exists p. split; [reflexivity|]. split; [now right|lia].
    + destruct (IH a ta Ha) as (tr & Hr & Hle & Hall & Hwho).
      exists tr. split; [exact Hr|]. split; [exact Hle|]. split.
      * intros q t' [->|Hq]%elem_of_cons Hq'.
        -- rewrite Hb in Hq'. discriminate.
        -- now apply (Hall q).
      * destruct Hwho as [->|(p & -> & Hp & Hlt')]; [now left|].
        right. exists p. split; [reflexivity|]. split; [now right|lia].
Qed.

(** X20. The record that [render] names as the latest check is a stored
    record whose time of last check parses, is after the epoch, and is
    not before that of any other record whose time parses; records
    without a time and records whose time does not parse are never
    named. No record is named exactly when no record has such a time,
    and the board then says that there are no checks yet. *)
Theorem latest_is_most_recent (rows : list Plate) :
  (forall p,
     latest rows = Some p ->
     p ∈ rows
     /\ exists t,
          check_time (Some p) = Some t /\ 0 < t
          /\ forall q t', q ∈ rows -> check_time (Some q) = Some t' ->
                          t' <= t)
  /\ (latest rows = None <->
      forall q t', q ∈ rows -> check_time (Some q) = Some t' -> t' <= 0)
  /\ (latest rows = None ->
      forall now, updated_text now rows = lit "no checks yet").
Proof.
  destruct (latest_from rows None 0 eq_refl) as (tr & Hr & Hle & Hall & Hwho).
  fold (latest rows) in *.
  split; [|split].
  - intros p Hp. rewrite Hp in *.
    destruct Hwho as [[=]|(p' & [= <-] & Hin & Hlt)].
    split; [exact Hin|]. exists tr. auto.
  - split.
    + intros Hnone. rewrite Hnone in Hr. injection Hr as <-. exact Hall.
    + intros Hnone. destruct Hwho as [Hsame|(p & Hp & Hin & Hlt)];
        [exact Hsame|].
      rewrite Hp in Hr. specialize (Hnone p tr Hin Hr). lia.
  - intros Hnone now. unfold updated_text. now rewrite Hnone.
Qed.

(** X21. In the older copy of the page a record is due exactly when it
    has no time of last check, when that time does not parse, or when 24
    hours or more have passed since; a time of last check in the future
    keeps the record from being due. *)
Theorem legacy_isDue_after_a_day (now : Z) (p : Plate) :
  Legacy.isDue now p = true
  <-> truthy (lastCheckedUtc p) = false
      \/ (exists s, lastCheckedUtc p = Val s /\ Date_parse s = None)
      \/ (exists s t,
            lastCheckedUtc p = Val s /\ Date_parse s = Some t
            /\ 86400000 <= now - t).
Proof.
  unfold Legacy.isDue, Legacy.REFRESH_CUTOFF_HOURS.
  destruct (lastCheckedUtc p) as [| |[|c s]] eqn:E; simpl;
    try (split; [intros _; left; reflexivity | reflexivity]).
  destruct (Date_parse (c :: s)) as [t|] eqn:D.
  - rewrite Z.leb_le. split.
    + intros Hd. right; right. exists (c :: s), t. auto.
    + intros [Hf | [(s' & Hs & Hn) | (s' & t' & Hs & Hp & Hd)]].
      * discriminate.
      * injection Hs as <-. congruence.
      * injection Hs as <-. rewrite D in Hp. injection Hp as <-. exact Hd.
  - split; [|reflexivity]. intros _. right; left. eauto.
Qed.
End RenderFacts.

(** X22. The older copy of the page shows the time since the last check
    in the same whole units, but without "Just now": below a minute it
    shows the seconds, a negative number for a time in the future. *)
Theorem legacy_relTime_whole_units `{Platform} (now : Z) (s : jsstring)
    (then_ : Z) :
  s <> [] -> Date_parse s = Some then_ ->
  (now - then_ < 60000 ->
   LegacyPage.relTime now (Val s)
   = decimal ((now - then_) / 1000) ++ lit "s ago")
  /\ (60000 <= now - then_ < 3600000 ->
      LegacyPage.relTime now (Val s)
      = decimal ((now - then_) / 60000) ++ lit "m ago")
  /\ (3600000 <= now - then_ < 86400000 ->
      LegacyPage.relTime now (Val s)
      = decimal ((now - then_) / 3600000) ++ lit "h ago")
  /\ (86400000 <= now - then_ ->
      LegacyPage.relTime now (Val s)
      = decimal ((now - then_) / 86400000) ++ lit "d ago").
Proof.
  intros Hne Hp. destruct s as [|c s]; [contradiction|].
  unfold LegacyPage.relTime. rewrite Hp. cbv zeta.
  destruct (whole_units (now - then_)) as (Hm & Hh & Hd).
  rewrite Hd, Hh, Hm. set (e := now - then_).
  repeat split;
    repeat match goal with
      | |- context [?a <? ?b] => destruct (Z.ltb_spec a b)
      end;
    try reflexivity; Z.div_mod_to_equations; lia.
Qed.

(** ** Adding and deleting again *)

Section AddDeleteFacts.
Context `{Platform}.

Lemma filter_insert_same_key (l : list Plate) i old m key :
  l !! i = Some old -> mkKey old = key -> mkKey m = key ->
  filter (fun p => mkKey p <> key) (<[i := m]> l)
  = filter (fun p => mkKey p <> key) l.
Proof.
  intros Hi Hold Hm.
  rewrite insert_take_drop by (eapply lookup_lt_Some; exact Hi).
  rewrite <- (take_drop_middle l i old Hi) at 3.
  rewrite !filter_app, !filter_cons_False by tauto. reflexivity.
Qed.

Lemma upsert_list_others (e : Plate) (l : list Plate) :
  owns_identity e \/ separator_free e ->
  filter (fun p => mkKey p <> mkKey e) (upsert_list e l)
  = filter (fun p => mkKey p <> mkKey e) l.
Proof.
  intros He. unfold upsert_list.
  destruct (findIndex (mkKey e) l) as [i|] eqn:E.
  - apply findIndex_Some in E as (old & Hl & Hk & _).
    rewrite (list_lookup_total_correct _ _ _ Hl).
    apply (filter_insert_same_key l i old); [exact Hl|exact Hk|].
    now apply mkKey_spread.
  - rewrite filter_app, filter_cons_False by tauto.
    now rewrite app_nil_r.
Qed.

Lemma upsert_list_has_key (e : Plate) (l : list Plate) :
  owns_identity e \/ separator_free e ->
  exists q, q ∈ upsert_list e l /\ mkKey q = mkKey e.
Proof.
  intros He. unfold upsert_list.
  destruct (findIndex (mkKey e) l) as [i|] eqn:E.
  - apply findIndex_Some in E as (old & Hl & Hk & _).
    rewrite (list_lookup_total_correct _ _ _ Hl).
    exists (spread old e). split; [|now apply mkKey_spread].
    eapply list_elem_of_lookup_2. apply list_lookup_insert_eq.
    eapply lookup_lt_Some; exact Hl.
  - exists e. split; [|reflexivity]. apply elem_of_app. right. left.
Qed.

(** X23. After an upsert of an entry that owns its seven identity
    properties, or whose key parts hold no separator, a lookup by the
    entry's key finds a record; and deleting by that key afterwards
    persists the records that the store held under other keys, each as
    often as before: all of the store, if the key was new. *)
Theorem upsert_then_delete (e : Plate) (st : Storage) :
  owns_identity e \/ separator_free e ->
  (exists i, findIndex (mkKey e) (loadPlates (snd (upsertPlate e st)))
             = Some i)
  /\ loadPlates (deleteByKey (mkKey e) (snd (upsertPlate e st)))
     ≡ₚ filter (fun p => mkKey p <> mkKey e) (loadPlates st)
  /\ ((forall q, q ∈ loadPlates st -> mkKey q <> mkKey e) ->
      loadPlates (deleteByKey (mkKey e) (snd (upsertPlate e st)))
      ≡ₚ loadPlates st).
Proof.
  intros He.
  assert (loadPlates (snd (upsertPlate e st))
          = sort compare_plates (upsert_list e (loadPlates st))) as Hup
    by reflexivity.
  assert (loadPlates (deleteByKey (mkKey e) (snd (upsertPlate e st)))
          ≡ₚ filter (fun p => mkKey p <> mkKey e) (loadPlates st)) as Hdel.
  { rewrite deleteByKey_stored, Hup, !sort_perm.
    now rewrite upsert_list_others. }
  split; [|split; [exact Hdel|]].
  - rewrite Hup.
    destruct (findIndex (mkKey e) (sort compare_plates _)) as [i|] eqn:E;
      [eauto|].
    destruct (upsert_list_has_key e (loadPlates st) He) as (q & Hq & Hk).
    exfalso. apply (findIndex_None _ _ E q); [|exact Hk].
    now rewrite sort_perm.
  - intros Hnew. rewrite Hdel. now rewrite filter_keeps_all.
Qed.
End AddDeleteFacts.

(** ** These statements at work on concrete stores *)

Section MoreWitnesses.
Import Reference Scenario Cases.

Lemma lex_compare_refl a : lex_compare a a = Eq.
Proof.
  induction a as [|x a IH]; simpl; [reflexivity|].
  now rewrite N.compare_refl.
Qed.

Lemma reference_compare_reflexive : @compare_reflexive platform.
Proof.
  intros a. simpl. unfold compare_base. now rewrite lex_compare_refl.
Qed.

Lemma abc_unique : unique_keys (loadPlates abc).
Proof.
  unfold unique_keys. apply (bool_decide_unpack _). vm_compute. reflexivity.
Qed.

Lemma validated_text_shape_witness :
  (1 <= length (lit "C0LLECT") <= 7)%nat
  /\ validatePlateText (lit "C0LLECT") = Ok (lit "C0LLECT").
Proof.
  destruct (@validated_text_shape platform (lit "c0llect") (lit "C0LLECT")
              eq_refl) as (Hlen & _ & Hagain).
  split; [exact Hlen|]. apply Hagain, reference_upper_fixes.
Defined.

Lemma mkKey_injective_without_separator_witness :
  keyParts (plate "ABC" "ID") = keyParts (bare "abc").
Proof.
  apply (@mkKey_injective_without_separator platform).
  - repeat constructor.
  - reflexivity.
Defined.

Lemma savePlates_keeps_records_witness :
  fst (savePlates two_states) ≡ₚ two_states
  /\ savePlates (fst (savePlates two_states)) = savePlates two_states.
Proof.
  destruct (@savePlates_keeps_records platform two_states)
    as (Hperm & _ & _ & Hagain).
  split; [exact Hperm|]. apply Hagain, reference_compare_total.
Defined.

Lemma savePlates_stable_witness :
  filter (fun p => sort_text p = lit "A") (fst (savePlates two_states))
  = [plate "A" "ID"; plate "A" "CA"].
Proof.
  rewrite (@savePlates_stable platform two_states (lit "A")
             reference_compare_reflexive).
  reflexivity.
Defined.

Lemma deleteByKey_removes_all_witness :
  deleteByKey (mkKey (plate "B" "ID")) (deleteByKey (mkKey (plate "B" "ID")) abc)
  = deleteByKey (mkKey (plate "B" "ID")) abc.
Proof.
  apply (@deleteByKey_removes_all platform), reference_compare_total.
Defined.

Lemma upsertPlate_replaces_witness :
  loadPlates (snd (upsertPlate (checked_at "B" "2024-02-01T00:00:00.000Z") abc))
  ≡ₚ [checked_at "B" "2024-02-01T00:00:00.000Z";
      plate "A" "ID"; plate "C" "ID"].
Proof.
  apply (@upsertPlate_replaces platform
           (checked_at "B" "2024-02-01T00:00:00.000Z") abc).
  - repeat split; discriminate.
  - exact abc_unique.
Defined.

Lemma submit_stores_entry_witness :
  loadPlates (fst (submit one_failure (lit "b") (lit "ID") abc))
  ≡ₚ [check_and_mark one_failure 0 (new_entry (lit "B") (lit "ID"));
      plate "A" "ID"; plate "C" "ID"].
Proof.
  apply (@submit_stores_entry platform one_failure (lit "b") (lit "B")
           (lit "ID") abc eq_refl abc_unique).
Defined.

Lemma refreshOne_books_first_match_witness :
  loadPlates (refreshOne one_failure (mkKey (plate "B" "ID")) abc)
  = [plate "A" "ID"; check_and_mark one_failure 0 (plate "B" "ID");
     plate "C" "ID"].
Proof.
  rewrite (proj2 (@refreshOne_books_first_match platform one_failure
                    (mkKey (plate "B" "ID")) abc)
             1%nat (plate "B" "ID") eq_refl eq_refl).
  - reflexivity.
  - intros [|j] q Hq Hj; [|lia]. injection Hq as <-. vm_compute.
    discriminate.
Defined.

Lemma migrate_writes_on_text_change_witness :
  migrate (Some (ArrayOf [bare "AB1"])) = Some (ArrayOf [bare "AB1"])
  /\ migrate (migrate (Some (ArrayOf [bare "ab-1"])))
     = migrate (Some (ArrayOf [bare "ab-1"])).
Proof.
  destruct (@migrate_writes_on_text_change platform
              (Some (ArrayOf [bare "AB1"]))) as (Hkeep & _ & _).
  destruct (@migrate_writes_on_text_change platform
              (Some (ArrayOf [bare "ab-1"]))) as (_ & _ & Hagain).
  split; [apply Hkeep; repeat constructor|].
  apply Hagain, reference_upper_fixes.
Defined.

Lemma importFile_replaces_store_witness :
  exists arr,
    ArrayOf [bare "ab-1"] = ArrayOf arr
    /\ loadPlates (Some (ArrayOf [import_record (bare "ab-1")]))
       = sort compare_plates (import_record <$> arr)
    /\ Forall defaulted
              (loadPlates (Some (ArrayOf [import_record (bare "ab-1")]))).
Proof.
  apply (proj1 (@importFile_replaces_store platform
                  (ArrayOf [bare "ab-1"]) abc)).
  reflexivity.
Defined.

Lemma export_import_roundtrip_witness :
  importFile
    (exportBlob (Some (ArrayOf [import_record (bare "ab-1")]))) abc
  = Ok (Some (ArrayOf [import_record (bare "ab-1")])).
Proof.
  apply (proj1 (proj2 (@export_import_roundtrip platform
                         reference_upper_fixes reference_compare_total))
           (ArrayOf [bare "ab-1"]) None).
  reflexivity.
Defined.

Lemma defaults_keep_key_witness :
  mkKey (fst (migrate_record (bare "AB1"))) = mkKey (bare "AB1")
  /\ mkKey (import_record (bare "AB1")) = mkKey (bare "AB1").
Proof.
  apply (@defaults_keep_key platform (bare "AB1")). reflexivity.
Defined.
Lemma refresh_run_keeps_records_witness :
  exists r,
    refreshDue always_available true true unsorted = Some r
    /\ Forall (fun W => mkKey <$> W ≡ₚ mkKey <$> loadPlates unsorted)
              (writes r).
Proof.
  destruct (@refreshDue_completes platform always_available true true
              unsorted) as [r Hr].
  exists r. split; [exact Hr|].
  destruct (@refresh_run_keeps_records platform always_available true true
              unsorted r Hr) as [Hw _].
  eapply Forall_impl; [exact Hw|]. now intros W [_ HW].
Defined.

Lemma refresh_run_progress_witness :
  exists r,
    refreshDue one_failure true true three_plates = Some r
    /\ length (writes r) = 3%nat
    /\ shown r
       = [Progress 0 3; Progress 1 3; Progress 2 3; Progress 3 3; Done].
Proof.
  exact (@refresh_run_progress platform one_failure true three_plates).
Defined.

Lemma due_refresh_checks_due_records_witness :
  exists r,
    refreshDue always_available true false half_checked = Some r
    /\ heap r !! 1%nat
       = Some (check_and_mark always_available 0 (plate "A" "ID"))
    /\ heap r !! 0%nat
       = Some (checked_at "B" "2024-02-01T00:00:00.000Z")
    /\ loadPlates (stored r) ≡ₚ heap r.
Proof.
  destruct (@due_refresh_checks_due_records platform always_available
              half_checked) as (r & Hr & Hdue & Hrest & Hsome & _).
  exists r. split; [exact Hr|]. split; [|split].
  - apply (Hdue 0%nat 1%nat). reflexivity.
  - apply (Hrest 0%nat). vm_compute. intros Hin.
    apply elem_of_cons in Hin as [Hin|Hin]; [discriminate|].
    now apply elem_of_nil in Hin.
  - apply Hsome. vm_compute. discriminate.
Defined.

Lemma second_run_same_month_is_idle_witness :
  exists r r',
    refreshDue always_available true false unsorted = Some r
    /\ refreshDue later_that_month true false (stored r) = Some r'
    /\ shown r' = [UpToDate]
    /\ stored r' = stored r.
Proof.
  destruct (@refreshDue_completes platform always_available true false
              unsorted) as [r Hr].
  destruct (@second_run_same_month_is_idle platform always_available
              later_that_month unsorted r Hr eq_refl eq_refl)
    as (r' & Hr' & Hshown & _ & Hstored).
  - intros k Hk. change (k < 2)%nat in Hk.
    destruct k as [|[|k]]; [| |lia];
      (split; [vm_compute; discriminate|]); repeat split.
  - exists r, r'. auto.
Defined.

Lemma check_depends_on_text_and_state_witness :
  checkAvailability one_failure 1
    (checked_at "ABC" "2024-02-01T00:00:00.000Z")
  = checkAvailability one_failure 1 (plate "ABC" "ID").
Proof.
  apply (@check_depends_on_text_and_state platform one_failure 1
           (plate "ABC" "ID")).
  - reflexivity.
  - split; intros Hca; vm_compute in Hca; discriminate.
Defined.

Lemma proxy_failures_are_noted_witness :
  exists n,
    n <> []
    /\ history (check_and_mark (world_on failing_network 0 (fun _ => 0)) 0
                  (plate "ABC" "ID"))
       = Val [{| status := lit "Error"; checkedUtc := toISOString 0;
                 note := Some n |}].
Proof.
  apply (proj2 (@proxy_failures_are_noted platform failing_network 0
                  (fun _ => 0) 0%nat (plate "ABC" "ID"))
           (Error (lit "HTTP 500"))).
  - reflexivity.
  - discriminate.
Defined.

Lemma relTime_whole_units_witness :
  relTime february_1_noon (Val (lit "2024-02-01T00:00:00.000Z"))
  = lit "12h ago".
Proof.
  destruct (proj2 (@relTime_whole_units platform february_1_noon
                     (lit "2024-02-01T00:00:00.000Z") ltac:(discriminate))
              1706745600000 eq_refl) as (_ & _ & _ & Hhours & _).
  destruct Hhours as [Hshown _]; [unfold february_1_noon; lia|].
  rewrite Hshown. reflexivity.
Defined.

Lemma latest_is_most_recent_witness :
  checked_at "B" "2024-02-01T00:00:00.000Z" ∈ checked_rows.
Proof.
  apply (proj1 (@latest_is_most_recent platform checked_rows)).
  reflexivity.
Defined.

Lemma legacy_isDue_after_a_day_witness :
  Legacy.isDue february_1_noon (checked_at "ABC" "2024-01-31T11:59:59.999Z")
  = true.
Proof.
  apply (@legacy_isDue_after_a_day platform). right; right.
  exists (lit "2024-01-31T11:59:59.999Z"), 1706702399999.
  repeat split. unfold february_1_noon. lia.
Defined.

Lemma legacy_relTime_whole_units_witness :
  LegacyPage.relTime february_1_noon (Val (lit "2024-02-01T11:59:58.000Z"))
  = lit "2s ago".
Proof.
  destruct (@legacy_relTime_whole_units platform february_1_noon
              (lit "2024-02-01T11:59:58.000Z") 1706788798000
              ltac:(discriminate) eq_refl) as (Hseconds & _).
  rewrite Hseconds; [reflexivity|]. unfold february_1_noon. lia.
Defined.
Lemma upsert_then_delete_witness :
  loadPlates (deleteByKey (mkKey (plate "D" "CA"))
                (snd (upsertPlate (plate "D" "CA") abc)))
  ≡ₚ loadPlates abc.
Proof.
  apply (@upsert_then_delete platform (plate "D" "CA") abc).
  - left. repeat split; discriminate.
  - intros q Hq.
    repeat (apply elem_of_cons in Hq as [->|Hq];
            [vm_compute; discriminate|]).
    now apply elem_of_nil in Hq.
Defined.
End MoreWitnesses.
